(** * Local command routing and range addressing

    A shallow embedding of the routing layer of the key-value store:

    - [kv/local_sender.go]: the registry of local stores ([LocalSender]) and
      the routing entry point [Send] with its bounded retry;
    - [client/call.go]: the [Call] object and [resetClientCmdID];
    - the addressing-index updater exercised by [TestUpdateRangeAddressing]
      (split and merge of range descriptors into meta1/meta2 records).

    Keys are byte strings ([list N], one [N] per byte) ordered
    lexicographically.  Go pointers to protobuf messages are modelled by
    value; the store behind a [*storage.Store] is an external collaborator and
    is a parameter of the development ([LookupRange], [ExecuteCmd] over an
    abstract [World]). *)

From stdpp Require Import gmap list sorting lexico strings.

Open Scope Z_scope.

(** ** Data model (package [proto]) *)

(** [proto.Key]: a byte string. *)
Abbreviation Key := (list N).

(** [proto.Timestamp]. *)
Module Timestamp.
Record t := mk { WallTime : Z; Logical : Z }.
End Timestamp.

(** [proto.Replica]; [zero] is the Go zero value [proto.Replica{}]. *)
Module Replica.
Record t := mk { NodeID : Z; StoreID : Z }.
Definition zero : t := mk 0 0.
End Replica.

(** [proto.StoreIdent]. *)
Module StoreIdent.
Record t := mk { NodeID : Z; StoreID : Z }.
End StoreIdent.

(** [proto.ClientCmdID]. *)
Module ClientCmdID.
Record t := mk { WallTime : Z; Random : Z }.
End ClientCmdID.

(** [proto.Transaction], restricted to the fields [Send] reads or writes.
    [CertainNodes.Contains] is list membership. *)
Module Transaction.
Record t := mk { Timestamp : Timestamp.t;
                 MaxTimestamp : Timestamp.t;
                 CertainNodes : list Z }.
Definition Contains (nodes : list Z) (n : Z) : bool :=
  bool_decide (n ∈ nodes).
Definition set_MaxTimestamp (ts : Timestamp.t) (txn : t) : t :=
  mk (Timestamp txn) ts (CertainNodes txn).
End Transaction.

(** [proto.RequestHeader].  [Txn] is a nilable pointer. *)
Module RequestHeader.
Record t := mk { Key : list N;
                 EndKey : list N;
                 RaftID : Z;
                 Replica : Replica.t;
                 Txn : option Transaction.t;
                 CmdID : ClientCmdID.t }.
Definition set_RaftID (r : Z) (h : t) : t :=
  mk (Key h) (EndKey h) r (Replica h) (Txn h) (CmdID h).
Definition set_Replica (r : Replica.t) (h : t) : t :=
  mk (Key h) (EndKey h) (RaftID h) r (Txn h) (CmdID h).
Definition set_Txn (x : option Transaction.t) (h : t) : t :=
  mk (Key h) (EndKey h) (RaftID h) (Replica h) x (CmdID h).
Definition set_CmdID (c : ClientCmdID.t) (h : t) : t :=
  mk (Key h) (EndKey h) (RaftID h) (Replica h) (Txn h) c.
End RequestHeader.

(** Go errors that reach the routing layer.  The type switch in [Send]
    distinguishes [*proto.RangeKeyMismatchError] from everything else. *)
Inductive GoError :=
| RangeKeyMismatchError (start end_ : Key) (range : option Z)
| Errorf_store_not_found (storeID : Z)
| OtherError (code : Z).

Definition NewRangeKeyMismatchError (start end_ : Key) (range : option Z) : GoError :=
  RangeKeyMismatchError start end_ range.

Definition is_RangeKeyMismatchError (e : GoError) : bool :=
  match e with
  | RangeKeyMismatchError _ _ _ => true
  | _ => false
  end.

(** A request: method name, header and an opaque body. *)
Module Request.
Record t := mk { Method : string; Header : RequestHeader.t; Body : list N }.
Definition set_Header (h : RequestHeader.t) (a : t) : t :=
  mk (Method a) h (Body a).
End Request.

(** A response: the header's [Error] slot and an opaque body.
    [SetGoError] stores the error in the header. *)
Module Response.
Record t := mk { Error : option GoError; Body : list N }.
Definition set_Error (e : option GoError) (r : t) : t := mk e (Body r).
Definition SetGoError (err : GoError) (r : t) : t := set_Error (Some err) r.
End Response.

(** ** [client/call.go] *)

Module Call.
Record t := mk { Args : Request.t; Reply : Response.t }.

Definition Method (c : t) : string := Request.Method (Args c).

(** [resetClientCmdID]: [now] is [clock.Now()], [rnd] is [rand.Int63()]. *)
Definition resetClientCmdID (now rnd : Z) (c : t) : t :=
  mk (Request.set_Header
        (RequestHeader.set_CmdID (ClientCmdID.mk now rnd)
           (Request.Header (Args c)))
        (Args c))
     (Reply c).
End Call.

(** ** [util.RetryWithBackoff] *)

Inductive RetryStatus := RetryBreak | RetryContinue.

Record RetryOptions := { Tag : string; MaxAttempts : nat }.

Inductive RetryMaxAttemptsError := MkRetryMaxAttemptsError (max : nat).

(** Modelled from the spec: the loop of util.RetryWithBackoff (util/retry.go
    is not among the sources).  The function [fn] is run until it answers
    [RetryBreak] or until [MaxAttempts] runs have been made ("up to a fixed
    maximum of two total attempts"); no backoff delay is modelled.  [count]
    is the number of runs still allowed. *)
Fixpoint retry_loop {St : Type} (max : nat) (count : nat)
    (fn : St → RetryStatus * St) (s : St) : option RetryMaxAttemptsError * St :=
  match count with
  | O => (Some (MkRetryMaxAttemptsError max), s)
  | S count' =>
      match fn s with
      | (RetryBreak, s') => (None, s')
      | (RetryContinue, s') => retry_loop max count' fn s'
      end
  end.

(** Modelled from the spec: util.RetryWithBackoff, the loop started with
    [MaxAttempts] runs allowed. *)
Definition RetryWithBackoff {St : Type} (opts : RetryOptions)
    (fn : St → RetryStatus * St) (s : St)
    : option RetryMaxAttemptsError * St :=
  retry_loop (MaxAttempts opts) (MaxAttempts opts) fn s.

(** ** [kv/local_sender.go] *)

(** [*storage.Store]: the identity it was bootstrapped with and the address
    of the object (two handles are the same store iff they are equal). *)
Record Store := { Ident : StoreIdent.t; addr : nat }.

(** What [Send] uses of a [*storage.Range]: [Desc().RaftID] and
    [GetReplica()]. *)
Record Range := { Desc_RaftID : Z; GetReplica : Replica.t }.

Record LocalSender := { storeMap : gmap Z Store }.

Definition NewLocalSender : LocalSender := {| storeMap := ∅ |}.

Definition GetStoreCount (ls : LocalSender) : nat := size (storeMap ls).

Definition HasStore (ls : LocalSender) (storeID : Z) : bool :=
  match storeMap ls !! storeID with
  | Some _ => true
  | None => false
  end.

Definition GetStore (ls : LocalSender) (storeID : Z) : Store + GoError :=
  match storeMap ls !! storeID with
  | Some store => inl store
  | None => inr (Errorf_store_not_found storeID)
  end.

(** A Go panic raised by [AddStore], carrying the formatted identity. *)
Inductive Panic := cannot_add_store_twice (ident : StoreIdent.t).

(** [AddStore] returns the registry it leaves behind and the panic it
    raised, if any.  The panic is raised before the map is written. *)
Definition AddStore (ls : LocalSender) (s : Store) : LocalSender * option Panic :=
  match storeMap ls !! StoreIdent.StoreID (Ident s) with
  | Some _ => (ls, Some (cannot_add_store_twice (Ident s)))
  | None =>
      ({| storeMap := <[StoreIdent.StoreID (Ident s) := s]> (storeMap ls) |}, None)
  end.

(** One invocation of [Store.ExecuteCmd] as seen by the router. *)
Record ExecLog := { ex_store : Store;
                    ex_args : Request.t;
                    ex_err : option GoError }.

(** One run of the retried closure of [Send]: the header on entry, the
    command execution it made (if any), the header when it returned and the
    status it returned. *)
Record AttemptLog := { at_entry : RequestHeader.t;
                       at_exec : option ExecLog;
                       at_exit : RequestHeader.t;
                       at_status : RetryStatus }.

Definition executions (tr : list AttemptLog) : list ExecLog :=
  omap at_exec tr.

Section Routing.
(** The state of the stores behind the registry. *)
Context {World : Type}.
(** [Store.LookupRange(start, end)]. *)
Variable LookupRange : World → Store → Key → Key → option Range.
(** [Store.ExecuteCmd(method, args, reply)]: the error it returns, the
    reply it filled in and the new state of the stores.  The request is an
    input of the store; only the reply is written. *)
Variable ExecuteCmd :
  Store → string → Request.t → Response.t → World →
  option GoError * Response.t * World.
(** The order in which a [range] loop visits the registry: unspecified in
    Go, it may differ from one loop to the next. *)
Variable map_range : World → gmap Z Store → list (Z * Store).

Definition VisitStores {E : Type} (ls : LocalSender) (w : World)
    (visitor : Store → option E) : option E :=
  foldr (λ p rest, match visitor p.2 with Some e => Some e | None => rest end)
        None (map_range w (storeMap ls)).

Fixpoint lookupReplica_loop (w : World) (stores : list (Z * Store))
    (start end_ : Key) : option Range :=
  match stores with
  | [] => None
  | (_, store) :: rest =>
      match LookupRange w store start end_ with
      | Some rng => Some rng
      | None => lookupReplica_loop w rest start end_
      end
  end.

Definition lookupReplica (ls : LocalSender) (w : World) (start end_ : Key)
    : (Z * Replica.t) + GoError :=
  match lookupReplica_loop w (map_range w (storeMap ls)) start end_ with
  | Some rng => inl (Desc_RaftID rng, GetReplica rng)
  | None => inr (NewRangeKeyMismatchError start end_ None)
  end.

(** Lines 115-124 of [Send]: trust the routing hint or look the replica
    up.  Returns the header as it is afterwards and [err]. *)
Definition resolve (ls : LocalSender) (w : World) (header : RequestHeader.t)
    : RequestHeader.t * option GoError :=
  if (RequestHeader.RaftID header =? 0)
     || (Replica.StoreID (RequestHeader.Replica header) =? 0)
  then
    match lookupReplica ls w (RequestHeader.Key header)
                        (RequestHeader.EndKey header) with
    | inl (raftID, repl) =>
        (RequestHeader.set_Replica repl
           (RequestHeader.set_RaftID raftID header), None)
    | inr err => (header, Some err)
    end
  else (header, None).

(** Lines 138-148: when the replica's node is certain, the deferred
    function captures [MaxTimestamp] and the header is narrowed. *)
Definition deferred_MaxTimestamp (header : RequestHeader.t)
    : option Timestamp.t :=
  match RequestHeader.Txn header with
  | Some txn =>
      if Transaction.Contains (Transaction.CertainNodes txn)
           (Replica.NodeID (RequestHeader.Replica header))
      then Some (Transaction.MaxTimestamp txn)
      else None
  | None => None
  end.

Definition set_Txn_MaxTimestamp (ts : Timestamp.t) (header : RequestHeader.t)
    : RequestHeader.t :=
  match RequestHeader.Txn header with
  | Some txn =>
      RequestHeader.set_Txn (Some (Transaction.set_MaxTimestamp ts txn)) header
  | None => header
  end.

Definition narrow (header : RequestHeader.t) : RequestHeader.t :=
  match RequestHeader.Txn header, deferred_MaxTimestamp header with
  | Some txn, Some _ => set_Txn_MaxTimestamp (Transaction.Timestamp txn) header
  | _, _ => header
  end.

(** The deferred function, run when the closure returns. *)
Definition run_deferred (d : option Timestamp.t) (header : RequestHeader.t)
    : RequestHeader.t :=
  match d with
  | Some ts => set_Txn_MaxTimestamp ts header
  | None => header
  end.

(** The closure passed to [util.RetryWithBackoff] (lines 108-165). *)
Definition attempt (ls : LocalSender) (st : Call.t * World)
    : RetryStatus * (Call.t * World) * AttemptLog :=
  let '(call, w) := st in
  let args := Call.Args call in
  let reply := Response.set_Error None (Call.Reply call) in
  let header0 := Request.Header args in
  let '(header, err) := resolve ls w header0 in
  let found :=
    match err with
    | None => GetStore ls (Replica.StoreID (RequestHeader.Replica header))
    | Some e => inr e
    end in
  match found with
  | inr e =>
      (RetryBreak,
       (Call.mk (Request.set_Header header args) (Response.SetGoError e reply), w),
       {| at_entry := header0; at_exec := None;
          at_exit := header; at_status := RetryBreak |})
  | inl store =>
      let d := deferred_MaxTimestamp header in
      let header1 := narrow header in
      let args1 := Request.set_Header header1 args in
      let '(err, reply1, w1) :=
        ExecuteCmd store (Request.Method args) args1 reply w in
      let '(status, header2, reply2) :=
        match err with
        | Some e =>
            let reply' := Response.SetGoError e reply1 in
            if is_RangeKeyMismatchError e
            then (RetryContinue,
                  RequestHeader.set_Replica Replica.zero header1, reply')
            else (RetryBreak, header1, reply')
        | None => (RetryBreak, header1, reply1)
        end in
      let header3 := run_deferred d header2 in
      (status,
       (Call.mk (Request.set_Header header3 args) reply2, w1),
       {| at_entry := header0;
          at_exec := Some {| ex_store := store; ex_args := args1; ex_err := err |};
          at_exit := header3; at_status := status |})
  end.

(** The closure with its log appended to the trace. *)
Definition attempt_logged (ls : LocalSender)
    (st : Call.t * World * list AttemptLog)
    : RetryStatus * (Call.t * World * list AttemptLog) :=
  let '(call, w, tr) := st in
  let '(status, (call', w'), log) := attempt ls (call, w) in
  (status, (call', w', tr ++ [log])).

(** [Send]: the call and the stores as it leaves them, and the trace of
    the closure's runs.  The error of [RetryWithBackoff] is dropped, as in
    the source. *)
Definition Send (ls : LocalSender) (w : World) (call : Call.t)
    : Call.t * World * list AttemptLog :=
  let retryOpts := {| Tag := "routing " +:+ Call.Method call +:+ " locally";
                      MaxAttempts := 2 |} in
  (RetryWithBackoff retryOpts (attempt_logged ls) (call, w, [])).2.

End Routing.

(** ** Range descriptors and the addressing index *)

(** [proto.RangeDescriptor], as the addressing test builds it. *)
Module RangeDescriptor.
Record t := mk { RaftID : Z; StartKey : Key; EndKey : Key }.
End RangeDescriptor.

(** Modelled from the spec: engine.KeyMin, the empty (lowest) key (package
    engine is not among the sources). *)
Definition KeyMin : Key := [].

(** Modelled from the spec: engine.MakeKey, the concatenation of a prefix
    and a key ("Level2Prefix + D.EndKey"). *)
Definition MakeKey (prefix key : Key) : Key := prefix ++ key.

(** Byte order on keys, and its reflexive closure. *)
Definition key_lt (a b : Key) : Prop := lexico a b.
Definition key_le (a b : Key) : Prop := a = b ∨ lexico a b.

Global Instance key_lt_dec : RelDecision key_lt.
Proof.
  intros a b. unfold key_lt.
  destruct (trichotomyT lexico a b) as [[Hlt | Heq] | Hgt].
  - left. exact Hlt.
  - right. subst. apply (irreflexivity lexico).
  - right. intros Hlt. apply (irreflexivity lexico a). by trans b.
Defined.

Global Instance key_le_dec : RelDecision key_le.
Proof. intros a b. unfold key_le. apply _. Defined.

(** One operation of the batch handed to the transactional client: a put
    of a descriptor under an addressing key, or a delete of the key. *)
Inductive MetaOp :=
| PutMeta (key : Key) (desc : RangeDescriptor.t)
| DelMeta (key : Key).

Definition op_key (op : MetaOp) : Key :=
  match op with
  | PutMeta k _ => k
  | DelMeta k => k
  end.

(** The only validation failure of the updater. *)
Inductive AddressingError := InvalidSplit (desc : RangeDescriptor.t).

(** The addressing index: the key-value data under the meta prefixes. *)
Abbreviation Index := (gmap Key RangeDescriptor.t).

(** Modelled from the spec: the batch of the transactional client (the
    client's Run is not among the sources).  A committed batch takes effect
    in order; the most recent write for a key wins. *)
Definition run_op (idx : Index) (op : MetaOp) : Index :=
  match op with
  | PutMeta k d => <[k := d]> idx
  | DelMeta k => delete k idx
  end.

Definition Run (calls : list MetaOp) (idx : Index) : Index :=
  foldl run_op idx calls.

(** The spans between consecutive end keys, the first one starting at
    [KeyMin]. *)
Definition inferred_spans (ends : list Key) : list (Key * Key) :=
  zip (KeyMin :: ends) ends.

(** [k] lies in the half-open span [[s, e)]. *)
Definition in_span (k : Key) (span : Key * Key) : Prop :=
  key_le span.1 k ∧ key_lt k span.2.

(** Consecutive non-empty spans from [lo] to [hi]: each one starts where the
    previous one ends. *)
Fixpoint partitions (lo hi : Key) (spans : list (Key * Key)) : Prop :=
  match spans with
  | [] => lo = hi
  | span :: rest => span.1 = lo ∧ key_lt span.1 span.2 ∧ partitions span.2 hi rest
  end.

Global Instance in_span_dec (k : Key) (span : Key * Key) :
  Decision (in_span k span).
Proof. unfold in_span. apply _. Defined.

Global Instance partitions_dec (lo hi : Key) (spans : list (Key * Key)) :
  Decision (partitions lo hi spans).
Proof.
  revert lo. induction spans as [|span rest IH]; intros lo; simpl; apply _.
Defined.

Section Addressing.
(** [engine.KeyMeta1Prefix], [engine.KeyMeta2Prefix] and [engine.KeyMax]
    (package [engine] is not among the sources). *)
Variables KeyMeta1Prefix KeyMeta2Prefix KeyMax : Key.

(** [meta1Key] and [meta2Key] of the addressing test. *)
Definition meta1Key (key : Key) : Key := MakeKey KeyMeta1Prefix key.
Definition meta2Key (key : Key) : Key := MakeKey KeyMeta2Prefix key.

(** Modelled from the spec: "falls inside the level-1 prefix". *)
Definition in_level1 (key : Key) : bool :=
  bool_decide (KeyMeta1Prefix `prefix_of` key).

(** Modelled from the spec: a key inside the level-2 addressing prefix. *)
Definition in_level2 (key : Key) : bool :=
  bool_decide (KeyMeta2Prefix `prefix_of` key).

(** Modelled from the spec: "lies within the level-1 or level-2
    addressing-prefix region" (the meta-addressing region). *)
Definition in_meta_region (key : Key) : bool :=
  bool_decide (KeyMeta1Prefix `prefix_of` key)
  || bool_decide (KeyMeta2Prefix `prefix_of` key).

(** Modelled from the spec: a range that holds the end of the level-2
    index, as the expectations of TestUpdateRangeAddressing show it
    (src/unnamed/part_000, lines 293-309): one that starts at [KeyMin] or at
    a level-2 key. *)
Definition holds_level2_end (desc : RangeDescriptor.t) : bool :=
  bool_decide (RangeDescriptor.StartKey desc = KeyMin)
  || in_level2 (RangeDescriptor.StartKey desc).

(** Modelled from the spec: the key derivation rule of the addressing index
    updater (storage/addressing.go is not among the sources).  Section 4.2
    gives a descriptor the level-2 key [Level2Prefix + EndKey] and, for an
    end key in the meta-addressing region, the level-1 key
    [Level1Prefix + EndKey].  The expectations of TestUpdateRangeAddressing
    (src/unnamed/part_000, lines 286-334), which the test compares with the
    records it scans from the engine, depart from that rule in two places,
    and the definition follows them there:
    - a descriptor whose end key is a level-2 key [meta2Key k] has the
      level-1 key [meta1Key k] and no level-2 key (lines 305-312);
    - a descriptor that ends outside the level-2 region and starts at
      [KeyMin] or at a level-2 key has the level-1 key of [KeyMax] as well
      (lines 293-297 and 305-309). *)
Definition addressing_keys (desc : RangeDescriptor.t) : list Key :=
  let endKey := RangeDescriptor.EndKey desc in
  if in_level2 endKey
  then [meta1Key (drop (length KeyMeta2Prefix) endKey)]
  else meta2Key endKey ::
       (if in_level1 endKey then [meta1Key endKey] else []) ++
       (if holds_level2_end desc then [meta1Key KeyMax] else []).

Definition putMeta (desc : RangeDescriptor.t) : list MetaOp :=
  (λ k, PutMeta k desc) <$> addressing_keys desc.

Definition delMeta (desc : RangeDescriptor.t) : list MetaOp :=
  DelMeta <$> addressing_keys desc.

(** Modelled from the spec: storage.SplitRangeAddressing (not among the
    sources).  A split whose boundary [left.EndKey] falls inside the level-1
    prefix is refused and nothing is written; otherwise the records of
    [left] and then of [right] are written.  The Go result is the pair
    (calls, error). *)
Definition SplitRangeAddressing (left right : RangeDescriptor.t)
    : list MetaOp * option AddressingError :=
  if in_level1 (RangeDescriptor.EndKey left)
  then ([], Some (InvalidSplit left))
  else (putMeta left ++ putMeta right, None).

(** Modelled from the spec: storage.MergeRangeAddressing (not among the
    sources).  The records of [left] are removed and the records of the
    merged range are written; as the test table does, the second descriptor
    is the merged range.  A merge has no validation failure. *)
Definition MergeRangeAddressing (left merged : RangeDescriptor.t)
    : list MetaOp * option AddressingError :=
  (delMeta left ++ putMeta merged, None).

(** The level-1 and the level-2 records among the operations of a
    batch. *)
Definition level1_ops (calls : list MetaOp) : list MetaOp :=
  filter (λ op, KeyMeta1Prefix `prefix_of` op_key op) calls.
Definition level2_ops (calls : list MetaOp) : list MetaOp :=
  filter (λ op, KeyMeta2Prefix `prefix_of` op_key op) calls.

(** What the caller does with the result: the batch is run only when no
    error was returned. *)
Definition commit (res : list MetaOp * option AddressingError) (idx : Index)
    : Index :=
  match res with
  | (calls, None) => Run calls idx
  | (_, Some _) => idx
  end.

(** The end key of a level-2 record key. *)
Definition level2_end_key (key : Key) : option Key :=
  if decide (KeyMeta2Prefix `prefix_of` key)
  then Some (drop (length KeyMeta2Prefix) key)
  else None.

(** The end keys of the level-2 records of the index, in key order. *)
Definition level2_end_keys (idx : Index) : list Key :=
  merge_sort key_le (omap level2_end_key (map_to_list idx).*1).

(** *** Splits and merges of the live ranges *)

(** The live ranges in key order, and the index. *)
Record AddrState := { ranges : list RangeDescriptor.t; index : Index }.

(** Modelled from the spec: the single full-keyspace range, with its
    sentinel record at [KeyMax] on both levels. *)
Definition initial (d0 : RangeDescriptor.t) : AddrState :=
  {| ranges := [d0];
     index := <[meta1Key KeyMax := d0]> (<[meta2Key KeyMax := d0]> ∅) |}.

Definition full_keyspace (d0 : RangeDescriptor.t) : Prop :=
  RangeDescriptor.StartKey d0 = KeyMin ∧ RangeDescriptor.EndKey d0 = KeyMax.

(** A valid split divides a live range strictly inside its span; a valid
    merge joins two neighbours.  Either one commits the updater's batch. *)
Inductive addr_step : AddrState → AddrState → Prop :=
| step_split pre d post idx left right calls :
    RangeDescriptor.StartKey left = RangeDescriptor.StartKey d →
    RangeDescriptor.EndKey left = RangeDescriptor.StartKey right →
    RangeDescriptor.EndKey right = RangeDescriptor.EndKey d →
    key_lt (RangeDescriptor.StartKey d) (RangeDescriptor.EndKey left) →
    key_lt (RangeDescriptor.EndKey left) (RangeDescriptor.EndKey d) →
    SplitRangeAddressing left right = (calls, None) →
    addr_step {| ranges := pre ++ d :: post; index := idx |}
              {| ranges := pre ++ left :: right :: post;
                 index := Run calls idx |}
| step_merge pre left right post idx merged calls :
    RangeDescriptor.StartKey merged = RangeDescriptor.StartKey left →
    RangeDescriptor.EndKey merged = RangeDescriptor.EndKey right →
    MergeRangeAddressing left merged = (calls, None) →
    addr_step {| ranges := pre ++ left :: right :: post; index := idx |}
              {| ranges := pre ++ merged :: post;
                 index := Run calls idx |}.

Definition reachable (d0 : RangeDescriptor.t) (st : AddrState) : Prop :=
  rtc addr_step (initial d0) st.

(** The span of a descriptor. *)
Definition span_of (d : RangeDescriptor.t) : Key * Key :=
  (RangeDescriptor.StartKey d, RangeDescriptor.EndKey d).

(** The invariant kept by splits and merges: the live ranges partition the
    key space, and the level-2 records are keyed by the end keys of the
    live ranges that end outside the level-2 region. *)
Definition addr_inv (st : AddrState) : Prop :=
  partitions KeyMin KeyMax (span_of <$> ranges st) ∧
  ∀ k : Key, is_Some (index st !! meta2Key k) ↔
             k ∈ RangeDescriptor.EndKey <$> ranges st ∧ in_level2 k = false.

End Addressing.

(** ** Sample inputs

    Concrete stores, calls and keys used to instantiate the statements
    below. *)

Module Sample.

(** Two handles with the same store identifier. *)
Definition store1 : Store := {| Ident := StoreIdent.mk 1 1; addr := 1 |}.
Definition store1_again : Store := {| Ident := StoreIdent.mk 1 1; addr := 2 |}.

Definition registry1 : LocalSender := (AddStore NewLocalSender store1).1.

Definition cmd : ClientCmdID.t := ClientCmdID.mk 10 20.

Definition txn1 : Transaction.t :=
  Transaction.mk (Timestamp.mk 5 0) (Timestamp.mk 9 0) [1].

(** A call routed by hint to store 1, one routed to the unregistered store 5
    and one without a hint. *)
Definition header_hint : RequestHeader.t :=
  RequestHeader.mk [97%N] [] 1 (Replica.mk 1 1) (Some txn1) cmd.
Definition header_store5 : RequestHeader.t :=
  RequestHeader.mk [97%N] [] 1 (Replica.mk 1 5) None cmd.
Definition header_no_hint : RequestHeader.t :=
  RequestHeader.mk [97%N] [] 0 Replica.zero None cmd.

Definition call_of (h : RequestHeader.t) : Call.t :=
  Call.mk (Request.mk "Get" h []) (Response.mk None []).

(** The registry visited in the order of [map_to_list]. *)
Definition map_order (w : unit) (m : gmap Z Store) : list (Z * Store) :=
  map_to_list m.

(** Stores that host every span, or none. *)
Definition lookup_always (w : unit) (s : Store) (start end_ : Key)
    : option Range :=
  Some {| Desc_RaftID := 1; GetReplica := Replica.mk 1 1 |}.
Definition lookup_never (w : unit) (s : Store) (start end_ : Key)
    : option Range := None.

(** Stores on which every command fails with a routing mismatch. *)
Definition mismatch : GoError := RangeKeyMismatchError [97%N] [] (Some 1).
Definition exec_mismatch (s : Store) (method : string) (args : Request.t)
    (reply : Response.t) (w : unit) : option GoError * Response.t * unit :=
  (Some mismatch, reply, w).

(** Sample meta prefixes and maximum key, and the keys "a", "m", "z". *)
Definition KeyMeta1Prefix : Key := [0; 0; 109; 101; 116; 97; 49]%N.
Definition KeyMeta2Prefix : Key := [0; 0; 109; 101; 116; 97; 50]%N.
Definition KeyMax : Key := [255; 255]%N.
Definition key_a : Key := [97%N].
Definition key_m : Key := [109%N].
Definition key_z : Key := [122%N].

Definition whole : RangeDescriptor.t := RangeDescriptor.mk 1 KeyMin KeyMax.
Definition left_a : RangeDescriptor.t := RangeDescriptor.mk 2 KeyMin key_a.
Definition right_a : RangeDescriptor.t := RangeDescriptor.mk 3 key_a KeyMax.

(** The state after splitting the full-keyspace range at "a". *)
Definition split_at_a : AddrState :=
  {| ranges := [left_a; right_a];
     index := Run (SplitRangeAddressing KeyMeta1Prefix KeyMeta2Prefix KeyMax
                     left_a right_a).1
                  (index (initial KeyMeta1Prefix KeyMeta2Prefix KeyMax whole)) |}.

(** The halves of the range from [KeyMin] to "a" split at the level-2 key
    of "m", and the state after that second split. *)
Definition left_m : RangeDescriptor.t :=
  RangeDescriptor.mk 8 KeyMin (meta2Key KeyMeta2Prefix key_m).
Definition right_m : RangeDescriptor.t :=
  RangeDescriptor.mk 9 (meta2Key KeyMeta2Prefix key_m) key_a.
Definition split_at_meta2_m : AddrState :=
  {| ranges := [left_m; right_m; right_a];
     index := Run (SplitRangeAddressing KeyMeta1Prefix KeyMeta2Prefix KeyMax
                     left_m right_m).1
                  (index split_at_a) |}.

(** An index holding the record of the range from "a" to "z". *)
Definition index_a_z : Index :=
  {[ meta2Key KeyMeta2Prefix key_z := RangeDescriptor.mk 4 key_a key_z ]}.

End Sample.

(** ** Registering several stores and visiting them *)

(** Successive calls of [AddStore], as the test contexts make them for each
    store they start; a panic ends the run. *)
Fixpoint AddStores (ls : LocalSender) (stores : list Store)
    : LocalSender * option Panic :=
  match stores with
  | [] => (ls, None)
  | s :: rest =>
      match AddStore ls s with
      | (ls', None) => AddStores ls' rest
      | (ls', Some p) => (ls', Some p)
      end
  end.

(** The loop of [VisitStores] for a visitor with effects: the visitor reads
    and writes a state of its own.  The result is the error returned, the
    visitor's state and the stores the visitor was called on, in order. *)
Fixpoint visit_loop {St E : Type} (visitor : Store → St → option E * St)
    (stores : list Store) (st : St) : option E * St * list Store :=
  match stores with
  | [] => (None, st, [])
  | s :: rest =>
      match visitor s st with
      | (Some e, st') => (Some e, st', [s])
      | (None, st') =>
          let '(err, st'', visited) := visit_loop visitor rest st' in
          (err, st'', s :: visited)
      end
  end.

Section Visiting.
Context {World : Type}.
Variable map_range : World → gmap Z Store → list (Z * Store).

Definition VisitStores_run {St E : Type} (ls : LocalSender) (w : World)
    (visitor : Store → St → option E * St) (st : St)
    : option E * St * list Store :=
  visit_loop visitor (map_range w (storeMap ls)).*2 st.

End Visiting.

(** ** The HTTP endpoint of the key-value API (second part of
    [kv/local_sender.go]: [verifyRequest], [DBServer]) *)

(** [util.EncodingType] and [allowedEncodings]. *)
Inductive EncodingType := JSONEncoding | ProtoEncoding.
Definition allowedEncodings : list EncodingType := [JSONEncoding; ProtoEncoding].

(** [proto.InternalCommitTrigger], opaque. *)
Record InternalCommitTrigger := { trigger_payload : list N }.

(** A [proto.Request] as [verifyRequest] distinguishes it: an
    [*proto.EndTransactionRequest] with its nilable commit trigger, or any
    other request. *)
Inductive ProtoRequest :=
| EndTransactionRequest (req : Request.t)
    (InternalCommitTrigger : option InternalCommitTrigger)
| OtherRequest (req : Request.t).

Definition Request_of (args : ProtoRequest) : Request.t :=
  match args with
  | EndTransactionRequest req _ => req
  | OtherRequest req => req
  end.

(** Go errors of the endpoint: the error built by [verifyRequest] with
    [util.Errorf], or the error of a helper, known by its text. *)
Inductive DBError :=
| Errorf_contains_commit_trigger (trigger : InternalCommitTrigger)
| HelperError (msg : string).

Definition verifyRequest (args : ProtoRequest) : option DBError :=
  match args with
  | EndTransactionRequest _ (Some trigger) =>
      Some (Errorf_contains_commit_trigger trigger)
  | _ => None
  end.

(** [strings.HasPrefix] and [strings.TrimPrefix]. *)
Definition HasPrefix (s prefix : string) : bool := String.prefix prefix s.
Definition TrimPrefix (s prefix : string) : string :=
  if HasPrefix s prefix
  then String.substring (String.length prefix)
         (String.length s - String.length prefix) s
  else s.

(** [http.StatusNotFound], [http.StatusBadRequest] and
    [http.StatusInternalServerError]. *)
Definition StatusNotFound : Z := 404.
Definition StatusBadRequest : Z := 400.
Definition StatusInternalServerError : Z := 500.

(** The text of an error response: [http.StatusText(code)] or
    [err.Error()]. *)
Inductive HttpText := StatusText (code : Z) | ErrorText (err : DBError).

(** What a handler does with its [http.ResponseWriter]: either
    [http.Error(w, text, code)], or it sets the Content-Type header and
    writes the body (status 200). *)
Inductive HttpResponse :=
| http_Error (text : HttpText) (code : Z)
| http_Write (contentType : string) (body : list N).

(** What [ServeHTTP] reads of the [*http.Request]: the URL path, the result
    of [ioutil.ReadAll(r.Body)] and the headers the helpers look at. *)
Record HttpRequest := { URL_Path : string;
                        ReadAll_Body : list N * option DBError;
                        Headers : list (string * string) }.

(** The result of serving a request: the response, whether the deferred
    [r.Body.Close()] ran, the call handed to the sender (if any) and the
    state behind the sender. *)
Record Served {W : Type} := { response : HttpResponse;
                             body_closed : bool;
                             sent : option Call.t;
                             after : W }.
Arguments Served : clear implicits.

Section DBServer.
Context {W : Type}.
(** [DBPrefix], that is [client.KVDBEndpoint], and the helpers of packages
    [proto] and [util] (not among the sources). *)
Variable DBPrefix : string.
Variable IsPublic : string → bool.
Variable CreateArgsAndReply : string → (ProtoRequest * Response.t) + DBError.
Variable UnmarshalRequest :
  HttpRequest → list N → ProtoRequest → list EncodingType →
  ProtoRequest + DBError.
Variable MarshalResponse :
  HttpRequest → Response.t → list EncodingType → (list N * string) + DBError.
(** The [client.KVSender] of the server. *)
Variable sender_Send : Call.t → W → Call.t * W.

Definition ServeHTTP (r : HttpRequest) (w : W) : Served W :=
  let method := URL_Path r in
  if negb (HasPrefix method DBPrefix)
  then {| response := http_Error (StatusText StatusNotFound) StatusNotFound;
          body_closed := false; sent := None; after := w |}
  else
  let method := TrimPrefix method DBPrefix in
  if negb (IsPublic method)
  then {| response := http_Error (StatusText StatusNotFound) StatusNotFound;
          body_closed := false; sent := None; after := w |}
  else
  let '(reqBody, err) := ReadAll_Body r in
  match err with
  | Some e =>
      {| response := http_Error (ErrorText e) StatusInternalServerError;
         body_closed := true; sent := None; after := w |}
  | None =>
  match CreateArgsAndReply method with
  | inr e =>
      {| response := http_Error (ErrorText e) StatusBadRequest;
         body_closed := true; sent := None; after := w |}
  | inl (args, reply) =>
  match UnmarshalRequest r reqBody args allowedEncodings with
  | inr e =>
      {| response := http_Error (ErrorText e) StatusBadRequest;
         body_closed := true; sent := None; after := w |}
  | inl args =>
  match verifyRequest args with
  | Some e =>
      {| response := http_Error (ErrorText e) StatusBadRequest;
         body_closed := true; sent := None; after := w |}
  | None =>
      let call := Call.mk (Request_of args) reply in
      let '(call', w') := sender_Send call w in
      match MarshalResponse r (Call.Reply call') allowedEncodings with
      | inr e =>
          {| response := http_Error (ErrorText e) StatusInternalServerError;
             body_closed := true; sent := Some call; after := w' |}
      | inl (body, contentType) =>
          {| response := http_Write contentType body;
             body_closed := true; sent := Some call; after := w' |}
      end
  end end end end.

End DBServer.

(** ** The expectations of the addressing test *)

(** [metaRecord] and [metaSlice.Less]. *)
Record metaRecord := { key : Key; desc : RangeDescriptor.t }.

Definition Less (a b : metaRecord) : Prop := key_lt (key a) (key b).

(** The inner loop of [addOrRemoveNew]: the index of the first record keyed
    [n], and the slice with the descriptor of that record replaced. *)
Fixpoint find_and_set (n : Key) (d : RangeDescriptor.t)
    (ms : list metaRecord) : option nat * list metaRecord :=
  match ms with
  | [] => (None, [])
  | m :: rest =>
      if decide (key m = n)
      then (Some O, {| key := key m; desc := d |} :: rest)
      else
        let '(found, rest') := find_and_set n d rest in
        (S <$> found, m :: rest')
  end.

(** One pass of the outer loop of [addOrRemoveNew]. *)
Definition addOrRemoveNew_key (d : RangeDescriptor.t) (add : bool)
    (expMetas : list metaRecord) (n : Key) : list metaRecord :=
  let '(found, expMetas) := find_and_set n d expMetas in
  match found with
  | None => if add then expMetas ++ [{| key := n; desc := d |}] else expMetas
  | Some i => if add then expMetas else take i expMetas ++ drop (S i) expMetas
  end.

Definition addOrRemoveNew (keys : list Key) (d : RangeDescriptor.t)
    (add : bool) (expMetas : list metaRecord) : list metaRecord :=
  foldl (addOrRemoveNew_key d add) expMetas keys.

(** The records of an expectation slice as a map from key to descriptor. *)
Definition metas_map (ms : list metaRecord) : Index :=
  list_to_map ((λ m, (key m, desc m)) <$> ms).

(** ** The addressing test *)

(** A row of the table of [TestUpdateRangeAddressing]. *)
Record testCase := { split : bool;
                     leftStart : Key; leftEnd : Key;
                     rightStart : Key; rightEnd : Key;
                     leftExpNew : list Key; rightExpNew : list Key }.

Global Instance RangeDescriptor_eq_dec : EqDecision RangeDescriptor.t.
Proof. solve_decision. Defined.

Global Instance metaRecord_eq_dec : EqDecision metaRecord.
Proof. solve_decision. Defined.

(** The order in which [sort.Sort] and the scan of the engine leave the
    records: ascending keys. *)
Definition key_order (a b : metaRecord) : Prop := key_le (key a) (key b).

Global Instance key_order_dec : RelDecision key_order.
Proof. intros a b. unfold key_order. apply _. Defined.

(** [sort.Sort(expMetas)]. *)
Definition sort_metas (ms : list metaRecord) : list metaRecord :=
  merge_sort key_order ms.

(** The scan of the meta keys of the engine and the loop that decodes the
    records (lines 349-361): the records of the index in key order. *)
Definition scan_metas (idx : Index) : list metaRecord :=
  merge_sort key_order
    ((λ kv, {| key := kv.1; desc := kv.2 |}) <$> map_to_list idx).

Section AddressingTest.
Variables KeyMeta1Prefix KeyMeta2Prefix KeyMax : Key.
(** The functions under test, [storage.SplitRangeAddressing] and
    [storage.MergeRangeAddressing]. *)
Variables SplitRangeAddressing MergeRangeAddressing :
  RangeDescriptor.t → RangeDescriptor.t →
  list MetaOp * option AddressingError.

(** Modelled from the spec: engine.RangeMetaKey (package engine is not among
    the sources) at a key outside the meta-addressing region: the level-2
    key of the key, "meta2(m)" in the comments of the table. *)
Definition RangeMetaKey (key : Key) : Key := meta2Key KeyMeta2Prefix key.

Local Abbreviation meta1Key' := (meta1Key KeyMeta1Prefix).
Local Abbreviation meta2Key' := (meta2Key KeyMeta2Prefix).

(** The table (lines 286-334); the keys "a", "m", "r" and "z" are the bytes
    97, 109, 114 and 122. *)
Definition testCases : list testCase :=
  let a : Key := [97%N] in
  let m : Key := [109%N] in
  let r : Key := [114%N] in
  let z : Key := [122%N] in
  [ {| split := false; leftStart := KeyMin; leftEnd := KeyMax;
       rightStart := KeyMin; rightEnd := KeyMax;
       leftExpNew := [];
       rightExpNew := [meta1Key' KeyMax; meta2Key' KeyMax] |};
    {| split := true; leftStart := KeyMin; leftEnd := a;
       rightStart := a; rightEnd := KeyMax;
       leftExpNew := [meta1Key' KeyMax; meta2Key' a];
       rightExpNew := [meta2Key' KeyMax] |};
    {| split := true; leftStart := a; leftEnd := z;
       rightStart := z; rightEnd := KeyMax;
       leftExpNew := [meta2Key' z];
       rightExpNew := [meta2Key' KeyMax] |};
    {| split := true; leftStart := a; leftEnd := m;
       rightStart := m; rightEnd := z;
       leftExpNew := [meta2Key' m];
       rightExpNew := [meta2Key' z] |};
    {| split := true; leftStart := KeyMin; leftEnd := RangeMetaKey m;
       rightStart := RangeMetaKey m; rightEnd := a;
       leftExpNew := [meta1Key' m];
       rightExpNew := [meta1Key' KeyMax; meta2Key' a] |};
    {| split := true; leftStart := RangeMetaKey m; leftEnd := RangeMetaKey z;
       rightStart := RangeMetaKey z; rightEnd := a;
       leftExpNew := [meta1Key' z];
       rightExpNew := [meta1Key' KeyMax; meta2Key' a] |};
    {| split := true; leftStart := RangeMetaKey m; leftEnd := RangeMetaKey r;
       rightStart := RangeMetaKey r; rightEnd := RangeMetaKey z;
       leftExpNew := [meta1Key' r];
       rightExpNew := [meta1Key' z] |};
    {| split := false; leftStart := RangeMetaKey m; leftEnd := RangeMetaKey r;
       rightStart := RangeMetaKey m; rightEnd := RangeMetaKey z;
       leftExpNew := [meta1Key' r];
       rightExpNew := [meta1Key' z] |};
    {| split := false; leftStart := RangeMetaKey m; leftEnd := RangeMetaKey z;
       rightStart := RangeMetaKey m; rightEnd := a;
       leftExpNew := [meta1Key' z];
       rightExpNew := [meta1Key' KeyMax; meta2Key' a] |};
    {| split := false; leftStart := KeyMin; leftEnd := RangeMetaKey m;
       rightStart := KeyMin; rightEnd := a;
       leftExpNew := [meta1Key' m];
       rightExpNew := [meta1Key' KeyMax; meta2Key' a] |};
    {| split := false; leftStart := a; leftEnd := m;
       rightStart := a; rightEnd := z;
       leftExpNew := [meta2Key' m];
       rightExpNew := [meta2Key' z] |};
    {| split := false; leftStart := a; leftEnd := z;
       rightStart := a; rightEnd := KeyMax;
       leftExpNew := [meta2Key' z];
       rightExpNew := [meta2Key' KeyMax] |};
    {| split := false; leftStart := KeyMin; leftEnd := a;
       rightStart := KeyMin; rightEnd := KeyMax;
       leftExpNew := [meta2Key' a];
       rightExpNew := [meta1Key' KeyMax; meta2Key' KeyMax] |} ].

(** The loop of the test (lines 337-417) from row [i] on, over the index of
    the store and the expectations built so far.  An error of the function
    under test ends the test ([t.Fatal]); for every row run, the result
    tells whether the expectations equal the scanned records (otherwise
    [t.Errorf], and the loop goes on). *)
Fixpoint run_cases (i : Z) (cases : list testCase) (idx : Index)
    (expMetas : list metaRecord) : option (list bool) :=
  match cases with
  | [] => Some []
  | test :: rest =>
      let left := RangeDescriptor.mk (i * 2) (leftStart test) (leftEnd test) in
      let right :=
        RangeDescriptor.mk (i * 2 + 1) (rightStart test) (rightEnd test) in
      let '(calls, err) :=
        if split test
        then SplitRangeAddressing left right
        else MergeRangeAddressing left right in
      match err with
      | Some _ => None
      | None =>
          let idx := Run calls idx in
          let metas := scan_metas idx in
          let expMetas :=
            sort_metas
              (addOrRemoveNew (rightExpNew test) right true
                 (addOrRemoveNew (leftExpNew test) left (split test)
                    expMetas)) in
          (bool_decide (expMetas = metas) ::.)
            <$> run_cases (i + 1) rest idx expMetas
      end
  end.

(** [TestUpdateRangeAddressing] on a store whose index is [idx]. *)
Definition TestUpdateRangeAddressing (idx : Index) : option (list bool) :=
  run_cases 0 testCases idx [].

End AddressingTest.

(** ** Further sample inputs *)

Module Fixture.

(** A second store. *)
Definition store2 : Store := {| Ident := StoreIdent.mk 2 2; addr := 3 |}.

(** Stores on which every command fails with an error that is not a routing
    mismatch. *)
Definition exec_fail (s : Store) (method : string) (args : Request.t)
    (reply : Response.t) (w : unit) : option GoError * Response.t * unit :=
  (Some (OtherError 7), Response.mk (Response.Error reply) [7%N], w).

(** Stores whose state counts the commands received: the first command
    fails with a mismatch, the later ones succeed. *)
Definition exec_stale_once (s : Store) (method : string) (args : Request.t)
    (reply : Response.t) (w : nat) : option GoError * Response.t * nat :=
  match w with
  | O => (Some Sample.mismatch, reply, 1%nat)
  | S _ => (None, Response.mk (Response.Error reply) [42%N], S w)
  end.

Definition lookup_store1 (w : nat) (s : Store) (start end_ : Key)
    : option Range :=
  Some {| Desc_RaftID := 1; GetReplica := Replica.mk 1 1 |}.

Definition map_order (w : nat) (m : gmap Z Store) : list (Z * Store) :=
  map_to_list m.

(** The registry visited in the reverse order. *)
Definition map_reverse (w : unit) (m : gmap Z Store) : list (Z * Store) :=
  reverse (map_to_list m).

(** A visitor that counts its calls and fails on the store at address 1. *)
Definition visitor (s : Store) (n : nat) : option Z * nat :=
  (if (addr s =? 1)%nat then Some 9 else None, S n).

(** An endpoint with the public methods Get and EndTransaction, whose
    decoding attaches the body as commit trigger to an EndTransaction
    request. *)
Definition DBPrefix : string := "/kv/db/".
Definition IsPublic (method : string) : bool :=
  (method =? "Get")%string || (method =? "EndTransaction")%string.
Definition CreateArgsAndReply (method : string)
    : (ProtoRequest * Response.t) + DBError :=
  if (method =? "EndTransaction")%string
  then inl (EndTransactionRequest
              (Request.mk method Sample.header_hint []) None,
            Response.mk None [])
  else inl (OtherRequest (Request.mk method Sample.header_hint []),
            Response.mk None []).
Definition UnmarshalRequest (r : HttpRequest) (body : list N)
    (args : ProtoRequest) (encodings : list EncodingType)
    : ProtoRequest + DBError :=
  match args with
  | EndTransactionRequest req _ =>
      inl (EndTransactionRequest req (Some {| trigger_payload := body |}))
  | OtherRequest req =>
      inl (OtherRequest (Request.mk (Request.Method req) (Request.Header req) body))
  end.
Definition MarshalResponse (r : HttpRequest) (reply : Response.t)
    (encodings : list EncodingType) : (list N * string) + DBError :=
  inl (Response.Body reply, "application/json").
Definition sender_Send (call : Call.t) (w : unit) : Call.t * unit :=
  (Send Sample.lookup_always Sample.exec_mismatch Sample.map_order
     Sample.registry1 w call).1.

Definition end_transaction : HttpRequest :=
  {| URL_Path := "/kv/db/EndTransaction";
     ReadAll_Body := ([1%N], None);
     Headers := [] |}.

(** Expectation records keyed "a" and "m". *)
Definition rec_a : metaRecord := {| key := Sample.key_a; desc := Sample.left_a |}.
Definition rec_m : metaRecord := {| key := Sample.key_m; desc := Sample.right_a |}.

End Fixture.

(** * Properties of the local sender *)

Section RoutingFacts.
Context {World : Type}.
Variable LookupRange : World → Store → Key → Key → option Range.
Variable ExecuteCmd :
  Store → string → Request.t → Response.t → World →
  option GoError * Response.t * World.
Variable map_range : World → gmap Z Store → list (Z * Store).

Local Abbreviation resolve' := (resolve LookupRange map_range).
Local Abbreviation attempt' := (attempt LookupRange ExecuteCmd map_range).
Local Abbreviation Send' := (Send LookupRange ExecuteCmd map_range).

(** With [MaxAttempts: 2] the retry loop is one run of the closure,
    followed by a second run exactly when the first asked to continue. *)
Lemma Send_unfold ls w call :
  Send' ls w call =
  match attempt' ls (call, w) with
  | (RetryBreak, (c1, w1), l1) => (c1, w1, [l1])
  | (RetryContinue, (c1, w1), l1) =>
      match attempt' ls (c1, w1) with
      | (_, (c2, w2), l2) => (c2, w2, [l1; l2])
      end
  end.
Proof.
  unfold Send, RetryWithBackoff, attempt_logged. cbn -[attempt].
  destruct (attempt' ls (call, w)) as [[[] [c1 w1]] l1]; cbn -[attempt]; [done|].
  by destruct (attempt' ls (c1, w1)) as [[[] [c2 w2]] l2].
Qed.

Lemma set_Txn_MaxTimestamp_CmdID ts h :
  RequestHeader.CmdID (set_Txn_MaxTimestamp ts h) = RequestHeader.CmdID h.
Proof. unfold set_Txn_MaxTimestamp. by destruct (RequestHeader.Txn h). Qed.

Lemma set_Txn_MaxTimestamp_Replica ts h :
  RequestHeader.Replica (set_Txn_MaxTimestamp ts h) = RequestHeader.Replica h.
Proof. unfold set_Txn_MaxTimestamp. by destruct (RequestHeader.Txn h). Qed.

Lemma narrow_CmdID h : RequestHeader.CmdID (narrow h) = RequestHeader.CmdID h.
Proof.
  unfold narrow.
  destruct (RequestHeader.Txn h), (deferred_MaxTimestamp h);
    auto using set_Txn_MaxTimestamp_CmdID.
Qed.

Lemma narrow_Replica h :
  RequestHeader.Replica (narrow h) = RequestHeader.Replica h.
Proof.
  unfold narrow.
  destruct (RequestHeader.Txn h), (deferred_MaxTimestamp h);
    auto using set_Txn_MaxTimestamp_Replica.
Qed.

Lemma run_deferred_CmdID d h :
  RequestHeader.CmdID (run_deferred d h) = RequestHeader.CmdID h.
Proof. destruct d; simpl; auto using set_Txn_MaxTimestamp_CmdID. Qed.

Lemma resolve_CmdID ls w h h' err :
  resolve' ls w h = (h', err) →
  RequestHeader.CmdID h' = RequestHeader.CmdID h.
Proof.
  unfold resolve. intros Hr.
  destruct (_ || _); [|by inversion Hr].
  destruct (lookupReplica _ _ _ _ _ _) as [[raftID repl]|e]; by inversion Hr.
Qed.

Lemma resolve_Txn ls w h h' err :
  resolve' ls w h = (h', err) →
  RequestHeader.Txn h' = RequestHeader.Txn h.
Proof.
  unfold resolve. intros Hr.
  destruct (_ || _); [|by inversion Hr].
  destruct (lookupReplica _ _ _ _ _ _) as [[raftID repl]|e]; by inversion Hr.
Qed.

(** The transaction seen by the store: narrowed exactly when the replica's
    node is certain. *)
Lemma narrow_Txn h txn :
  RequestHeader.Txn h = Some txn →
  RequestHeader.Txn (narrow h) =
  Some (if Transaction.Contains (Transaction.CertainNodes txn)
             (Replica.NodeID (RequestHeader.Replica h))
        then Transaction.set_MaxTimestamp (Transaction.Timestamp txn) txn
        else txn).
Proof.
  intros Ht. unfold narrow, deferred_MaxTimestamp.
  rewrite Ht. destruct (Transaction.Contains _ _); [|done].
  unfold set_Txn_MaxTimestamp. by rewrite Ht.
Qed.

(** Running the deferred function after the narrowing, and after an
    optional reset of the replica, gives the transaction back. *)
Lemma run_deferred_restores h (clear : bool) :
  RequestHeader.Txn
    (run_deferred (deferred_MaxTimestamp h)
       (if clear
        then RequestHeader.set_Replica Replica.zero (narrow h)
        else narrow h))
  = RequestHeader.Txn h.
Proof.
  unfold narrow, deferred_MaxTimestamp, run_deferred, set_Txn_MaxTimestamp.
  destruct h as [k ek r rep [[ts mts cn]|] cmd]; simpl; [|by destruct clear].
  destruct (Transaction.Contains cn (Replica.NodeID rep)); by destruct clear.
Qed.

(** What one run of the closure leaves unchanged, and how its log
    describes it. *)
Lemma attempt_frame ls call w status call' w' log :
  attempt' ls (call, w) = (status, (call', w'), log) →
  at_entry log = Request.Header (Call.Args call) ∧
  at_exit log = Request.Header (Call.Args call') ∧
  at_status log = status ∧
  RequestHeader.CmdID (Request.Header (Call.Args call')) =
    RequestHeader.CmdID (Request.Header (Call.Args call)) ∧
  RequestHeader.Txn (Request.Header (Call.Args call')) =
    RequestHeader.Txn (Request.Header (Call.Args call)).
Proof.
  unfold attempt. intros Ha.
  destruct (resolve' _ _ _) as [header err] eqn:Hr.
  pose proof (resolve_CmdID _ _ _ _ _ Hr) as Hc.
  pose proof (resolve_Txn _ _ _ _ _ Hr) as Ht.
  repeat case_match; simplify_eq/=; repeat split; try done;
    rewrite ?run_deferred_CmdID; simpl; rewrite ?narrow_CmdID; try done.
  - by rewrite (run_deferred_restores header true).
  - by rewrite (run_deferred_restores header false).
  - by rewrite (run_deferred_restores header false).
Qed.

(** A run that reached the store: how the store was called, what came
    back, and when the closure asks for another run. *)
Lemma attempt_exec ls call w status call' w' log ex :
  attempt' ls (call, w) = (status, (call', w'), log) →
  at_exec log = Some ex →
  ∃ header reply1,
    resolve' ls w (Request.Header (Call.Args call)) = (header, None) ∧
    storeMap ls !! Replica.StoreID (RequestHeader.Replica header)
      = Some (ex_store ex) ∧
    ex_args ex = Request.set_Header (narrow header) (Call.Args call) ∧
    ExecuteCmd (ex_store ex) (Request.Method (Call.Args call)) (ex_args ex)
      (Response.set_Error None (Call.Reply call)) w
      = (ex_err ex, reply1, w') ∧
    (∀ e, ex_err ex = Some e → Response.Error (Call.Reply call') = Some e) ∧
    (status = RetryContinue ↔
     ∃ e, ex_err ex = Some e ∧ is_RangeKeyMismatchError e = true).
Proof.
  unfold attempt, GetStore. intros Ha Hex.
  destruct (resolve' _ _ _) as [header err] eqn:Hr.
  repeat case_match; simplify_eq/=; eexists _, _;
    (split; [done|]); (split; [done|]); (split; [done|]);
    (split; [done|]); (split; [by intros e He|]); split; try done.
  - intros _. by eexists.
  - intros (e & [= <-] & He). congruence.
  - by intros (e & [=] & _).
Qed.

(** A run that did not reach the store stops the loop with the error of
    the lookup or of [GetStore] on the reply. *)
Lemma attempt_no_exec ls call w status call' w' log :
  attempt' ls (call, w) = (status, (call', w'), log) →
  at_exec log = None →
  status = RetryBreak ∧ w' = w ∧
  ∃ header,
    Request.Header (Call.Args call') = header ∧
    ((∃ e, resolve' ls w (Request.Header (Call.Args call)) = (header, Some e) ∧
           Response.Error (Call.Reply call') = Some e) ∨
     (resolve' ls w (Request.Header (Call.Args call)) = (header, None) ∧
      storeMap ls !! Replica.StoreID (RequestHeader.Replica header) = None ∧
      Response.Error (Call.Reply call') =
        Some (Errorf_store_not_found
                (Replica.StoreID (RequestHeader.Replica header))))).
Proof.
  unfold attempt, GetStore. intros Ha Hex.
  destruct (resolve' _ _ _) as [header err] eqn:Hr.
  repeat case_match; simplify_eq/=; (split; [done|]); (split; [done|]);
    eexists; (split; [done|]).
  - left. by eexists.
  - right. done.
Qed.

(** The closure runs at most twice, so the store is called at most
    twice. *)
Lemma Send_at_most_two ls w call :
  (length (Send' ls w call).2 ≤ 2)%nat ∧
  (length (executions (Send' ls w call).2) ≤ 2)%nat.
Proof.
  rewrite Send_unfold.
  destruct (attempt' ls (call, w)) as [[[] [c1 w1]] [? [ex1|] ? ?]];
    try (cbn; lia);
    destruct (attempt' ls (c1, w1)) as [[s2 [c2 w2]] [? [ex2|] ? ?]];
    cbn; lia.
Qed.

Lemma lookupReplica_loop_None w stores start end_ :
  (∀ p, p ∈ stores → LookupRange w p.2 start end_ = None) →
  lookupReplica_loop LookupRange w stores start end_ = None.
Proof.
  induction stores as [|[id store] rest IH]; intros Hnone; [done|].
  simpl. pose proof (Hnone (id, store) ltac:(by left)) as Hs.
  simpl in Hs. rewrite Hs.
  apply IH. intros p Hp. apply Hnone. by right.
Qed.

(** The transaction a run shows to the store. *)
Lemma attempt_exec_Txn ls call w status call' w' log ex txn :
  attempt' ls (call, w) = (status, (call', w'), log) →
  at_exec log = Some ex →
  RequestHeader.Txn (Request.Header (Call.Args call)) = Some txn →
  RequestHeader.Txn (Request.Header (ex_args ex)) =
  Some (if Transaction.Contains (Transaction.CertainNodes txn)
             (Replica.NodeID (RequestHeader.Replica (Request.Header (ex_args ex))))
        then Transaction.set_MaxTimestamp (Transaction.Timestamp txn) txn
        else txn).
Proof.
  intros Ha Hex Ht.
  destruct (attempt_exec _ _ _ _ _ _ _ _ Ha Hex)
    as (header & reply1 & Hr & _ & -> & _).
  simpl. rewrite narrow_Replica. apply narrow_Txn.
  by rewrite (resolve_Txn _ _ _ _ _ Hr).
Qed.

Lemma attempt_exec_CmdID ls call w status call' w' log ex :
  attempt' ls (call, w) = (status, (call', w'), log) →
  at_exec log = Some ex →
  RequestHeader.CmdID (Request.Header (ex_args ex)) =
  RequestHeader.CmdID (Request.Header (Call.Args call)).
Proof.
  intros Ha Hex.
  destruct (attempt_exec _ _ _ _ _ _ _ _ Ha Hex)
    as (header & reply1 & Hr & _ & -> & _).
  simpl. rewrite narrow_CmdID. by apply (resolve_CmdID _ _ _ _ _ Hr).
Qed.

(** C1.  When the first execution of a call fails with a routing-mismatch
    error and the second execution fails with one as well, [Send] leaves
    the second mismatch error on the reply, and the store was called
    exactly twice (the closure ran exactly twice): there is no third
    attempt. *)
Theorem Send_two_mismatches_then_surface ls w call call' w' tr e1 e2 rest :
  Send' ls w call = (call', w', tr) →
  ex_err <$> executions tr = Some e1 :: Some e2 :: rest →
  is_RangeKeyMismatchError e1 = true →
  is_RangeKeyMismatchError e2 = true →
  Response.Error (Call.Reply call') = Some e2 ∧
  length (executions tr) = 2%nat ∧
  length tr = 2%nat.
Proof.
  rewrite Send_unfold. intros HS Herrs _ _.
  destruct (attempt' ls (call, w)) as [[s1 [c1 w1]] l1] eqn:H1.
  destruct s1.
  { simplify_eq. unfold executions in Herrs. simpl in Herrs.
    by destruct (at_exec l1). }
  destruct (attempt' ls (c1, w1)) as [[s2 [c2 w2]] l2] eqn:H2.
  simplify_eq. unfold executions in *. simpl in *.
  destruct (at_exec l1) as [ex1|] eqn:Hex1;
    destruct (at_exec l2) as [ex2|] eqn:Hex2; simplify_eq/=.
  split; [|done].
  destruct (attempt_exec _ _ _ _ _ _ _ _ H2 Hex2)
    as (header & reply1 & _ & _ & _ & _ & Herr & _).
  by apply Herr.
Qed.

(** C6.  Adding a store whose identifier is already registered panics and
    leaves the registry as it was, so the identifier still maps to the
    store registered first. *)
Theorem AddStore_twice_panics ls s first :
  storeMap ls !! StoreIdent.StoreID (Ident s) = Some first →
  AddStore ls s = (ls, Some (cannot_add_store_twice (Ident s))) ∧
  GetStore (AddStore ls s).1 (StoreIdent.StoreID (Ident s)) = inl first.
Proof.
  intros Hreg. unfold AddStore, GetStore. rewrite Hreg. simpl.
  by rewrite Hreg.
Qed.

(** C7.  For a transactional call, every run of the closure starts and
    ends with the transaction as the caller passed it (so does [Send]),
    whatever status the run returns; and whenever the store is called for a
    replica whose node is in [CertainNodes], the store sees the transaction
    with [MaxTimestamp] set to [Timestamp] and nothing else changed. *)
Theorem Send_MaxTimestamp_scoped ls w call txn :
  RequestHeader.Txn (Request.Header (Call.Args call)) = Some txn →
  RequestHeader.Txn (Request.Header (Call.Args (Send' ls w call).1.1))
    = Some txn ∧
  Forall (λ a,
    RequestHeader.Txn (at_entry a) = Some txn ∧
    RequestHeader.Txn (at_exit a) = Some txn ∧
    ∀ ex, at_exec a = Some ex →
      Replica.NodeID (RequestHeader.Replica (Request.Header (ex_args ex)))
        ∈ Transaction.CertainNodes txn →
      RequestHeader.Txn (Request.Header (ex_args ex)) =
      Some (Transaction.set_MaxTimestamp (Transaction.Timestamp txn) txn))
    (Send' ls w call).2.
Proof.
  intros Ht.
  assert (∀ c w0 s c' w0' l,
    RequestHeader.Txn (Request.Header (Call.Args c)) = Some txn →
    attempt' ls (c, w0) = (s, (c', w0'), l) →
    RequestHeader.Txn (Request.Header (Call.Args c')) = Some txn ∧
    RequestHeader.Txn (at_entry l) = Some txn ∧
    RequestHeader.Txn (at_exit l) = Some txn ∧
    ∀ ex, at_exec l = Some ex →
      Replica.NodeID (RequestHeader.Replica (Request.Header (ex_args ex)))
        ∈ Transaction.CertainNodes txn →
      RequestHeader.Txn (Request.Header (ex_args ex)) =
      Some (Transaction.set_MaxTimestamp (Transaction.Timestamp txn) txn))
    as Hrun.
  { intros c w0 s c' w0' l Hc Ha.
    destruct (attempt_frame _ _ _ _ _ _ _ Ha) as (-> & -> & _ & _ & Hx).
    rewrite Hx. repeat split; try done.
    intros ex Hex Hnode.
    rewrite (attempt_exec_Txn _ _ _ _ _ _ _ _ _ Ha Hex Hc).
    unfold Transaction.Contains. by rewrite bool_decide_eq_true_2. }
  rewrite Send_unfold.
  destruct (attempt' ls (call, w)) as [[s1 [c1 w1]] l1] eqn:H1.
  destruct (Hrun _ _ _ _ _ _ Ht H1) as (Hc1 & Hl1).
  destruct s1; cbn [fst snd].
  { split; [done|]. apply Forall_cons; split; [done|constructor]. }
  destruct (attempt' ls (c1, w1)) as [[s2 [c2 w2]] l2] eqn:H2.
  destruct (Hrun _ _ _ _ _ _ Hc1 H2) as (Hc2 & Hl2).
  cbn [fst snd]. split; [done|].
  apply Forall_cons; split; [done|].
  apply Forall_cons; split; [done|constructor].
Qed.

(** C8.  [GetStore] returns the registered store exactly when the
    identifier is in the registry and the not-found error otherwise; and
    when the store named by the resolved header is not registered, [Send]
    puts that error on the reply after a single run of the closure that
    never calls a store. *)
Theorem GetStore_not_found_no_retry ls :
  (∀ id store, GetStore ls id = inl store ↔ storeMap ls !! id = Some store) ∧
  (∀ id e, GetStore ls id = inr e ↔
           storeMap ls !! id = None ∧ e = Errorf_store_not_found id) ∧
  (∀ w call header,
     resolve' ls w (Request.Header (Call.Args call)) = (header, None) →
     storeMap ls !! Replica.StoreID (RequestHeader.Replica header) = None →
     ∃ call' log,
       Send' ls w call = (call', w, [log]) ∧
       Response.Error (Call.Reply call') =
         Some (Errorf_store_not_found
                 (Replica.StoreID (RequestHeader.Replica header))) ∧
       at_exec log = None ∧ at_status log = RetryBreak).
Proof.
  split; [|split].
  - intros id store. unfold GetStore.
    destruct (storeMap ls !! id); split; intros; by simplify_eq.
  - intros id e. unfold GetStore.
    destruct (storeMap ls !! id); split.
    + intros [=].
    + by intros [[=] _].
    + by intros [= <-].
    + by intros [_ ->].
  - intros w call header Hr Hnone.
    rewrite Send_unfold. unfold attempt, GetStore. rewrite Hr, Hnone.
    by eexists _, _.
Qed.

(** [resetClientCmdID] is what assigns the identifier: it replaces [CmdID]
    and nothing else. *)
Lemma resetClientCmdID_sets now rnd c :
  Request.Header (Call.Args (Call.resetClientCmdID now rnd c)) =
    RequestHeader.set_CmdID (ClientCmdID.mk now rnd)
      (Request.Header (Call.Args c)) ∧
  Call.Reply (Call.resetClientCmdID now rnd c) = Call.Reply c.
Proof. done. Qed.

(** C9.  [Send] never changes the command identifier: every call to a
    store, every entry to and exit from the closure, and the call as
    [Send] returns it carry the [CmdID] the call came in with. *)
Theorem Send_preserves_CmdID ls w call :
  let cmd := RequestHeader.CmdID (Request.Header (Call.Args call)) in
  RequestHeader.CmdID (Request.Header (Call.Args (Send' ls w call).1.1)) = cmd ∧
  Forall (λ ex, RequestHeader.CmdID (Request.Header (ex_args ex)) = cmd)
    (executions (Send' ls w call).2) ∧
  Forall (λ a, RequestHeader.CmdID (at_entry a) = cmd ∧
               RequestHeader.CmdID (at_exit a) = cmd)
    (Send' ls w call).2.
Proof.
  intros cmd. subst cmd. rewrite Send_unfold.
  destruct (attempt' ls (call, w)) as [[s1 [c1 w1]] l1] eqn:H1.
  destruct (attempt_frame _ _ _ _ _ _ _ H1) as (He1 & Hx1 & _ & Hc1 & _).
  pose proof (λ ex, attempt_exec_CmdID _ _ _ _ _ _ _ ex H1) as Hex1.
  assert (Forall (λ ex, RequestHeader.CmdID (Request.Header (ex_args ex)) =
                        RequestHeader.CmdID (Request.Header (Call.Args call)))
            (executions [l1])) as Hexs1.
  { unfold executions. simpl. destruct (at_exec l1); [|done].
    constructor; [by apply Hex1|done]. }
  destruct s1; cbn [fst snd].
  { split; [done|]. split; [done|].
    constructor; [|done]. by rewrite He1, Hx1. }
  destruct (attempt' ls (c1, w1)) as [[s2 [c2 w2]] l2] eqn:H2.
  destruct (attempt_frame _ _ _ _ _ _ _ H2) as (He2 & Hx2 & _ & Hc2 & _).
  pose proof (λ ex, attempt_exec_CmdID _ _ _ _ _ _ _ ex H2) as Hex2.
  cbn [fst snd]. split; [congruence|]. split.
  - change [l1; l2] with ([l1] ++ [l2]). unfold executions in *.
    rewrite omap_app. apply Forall_app. split; [done|].
    simpl. destruct (at_exec l2); [|done].
    constructor; [|done]. rewrite Hex2; [done|done].
  - constructor; [by rewrite He1, Hx1|].
    constructor; [|done]. rewrite He2, Hx2. split; congruence.
Qed.

Hypothesis map_range_perm : ∀ w m, map_range w m ≡ₚ map_to_list m.

(** C10.  For a call without a routing hint whose span no registered store
    hosts, [Send] puts the [RangeKeyMismatchError] of [lookupReplica] on the
    reply after a single run of the closure, calls no store and leaves the
    header as it was.  In general the closure asks for another run only
    after a store's execution returned a mismatch error. *)
Theorem Send_lookup_mismatch_single_attempt ls w call :
  let header := Request.Header (Call.Args call) in
  RequestHeader.RaftID header = 0 ∨
    Replica.StoreID (RequestHeader.Replica header) = 0 →
  (∀ id store, storeMap ls !! id = Some store →
     LookupRange w store (RequestHeader.Key header)
       (RequestHeader.EndKey header) = None) →
  (∃ call' log,
     Send' ls w call = (call', w, [log]) ∧
     Response.Error (Call.Reply call') =
       Some (RangeKeyMismatchError (RequestHeader.Key header)
               (RequestHeader.EndKey header) None) ∧
     Request.Header (Call.Args call') = header ∧
     at_exec log = None ∧ at_status log = RetryBreak) ∧
  (∀ st status st' log,
     attempt' ls st = (status, st', log) →
     status = RetryContinue →
     ∃ ex e, at_exec log = Some ex ∧ ex_err ex = Some e ∧
             is_RangeKeyMismatchError e = true).
Proof.
  intros header Hhint Hnone. split.
  - assert (resolve' ls w header =
            (header, Some (RangeKeyMismatchError (RequestHeader.Key header)
                             (RequestHeader.EndKey header) None))) as Hr.
    { unfold resolve, lookupReplica.
      replace (_ || _) with true; last first.
      { symmetry. apply orb_true_iff. destruct Hhint as [->| ->]; auto. }
      rewrite lookupReplica_loop_None; [done|].
      intros [id store] Hin. apply (Hnone id).
      apply elem_of_map_to_list. by rewrite <-(map_range_perm w). }
    rewrite Send_unfold. unfold attempt. fold header. rewrite Hr.
    by eexists _, _.
  - intros [c w0] status [c' w0'] log Ha ->.
    destruct (at_exec log) as [ex|] eqn:Hex.
    + destruct (attempt_exec _ _ _ _ _ _ _ _ Ha Hex)
        as (h & r1 & _ & _ & _ & _ & _ & Hcont).
      destruct Hcont as [(e & He & Hm) _]; [done|]. by exists ex, e.
    + by destruct (attempt_no_exec _ _ _ _ _ _ _ Ha Hex) as [? _].
Qed.

End RoutingFacts.

(** * The byte order on keys and partitions *)

Section KeyOrder.

Global Instance key_lt_strict : StrictOrder key_lt.
Proof. change (StrictOrder (@lexico Key _)). apply _. Qed.

Global Instance key_le_refl : Reflexive key_le.
Proof. intros a. by left. Qed.

Global Instance key_le_trans : Transitive key_le.
Proof.
  intros a b c [->|Hab] [->|Hbc]; unfold key_le; auto.
  right. by trans b.
Qed.

Global Instance key_le_antisymm : AntiSymm (=) key_le.
Proof.
  intros a b [->|Hab] [Heq|Hba]; try done.
  exfalso. apply (irreflexivity lexico a). by trans b.
Qed.

Global Instance key_le_total : Total key_le.
Proof.
  intros a b. unfold key_le.
  destruct (trichotomyT lexico a b) as [[?|?]|?]; auto.
Qed.

Lemma key_lt_le (a b : Key) : key_lt a b → key_le a b.
Proof. by right. Qed.

Lemma key_lt_le_trans (a b c : Key) : key_lt a b → key_le b c → key_lt a c.
Proof. intros Hab [<-|Hbc]; [done|]. by trans b. Qed.

Lemma key_lt_not_le (a b : Key) : key_lt a b → ¬ key_le b a.
Proof.
  intros Hab Hba. apply (irreflexivity key_lt a).
  by apply (key_lt_le_trans _ b).
Qed.

(** *** Partitions *)

Lemma partitions_app (lo hi : Key) (s1 s2 : list (Key * Key)) :
  partitions lo hi (s1 ++ s2) ↔
  ∃ mid, partitions lo mid s1 ∧ partitions mid hi s2.
Proof.
  revert lo. induction s1 as [|[s e] s1 IH]; intros lo; simpl.
  - split; [by exists lo|by intros (mid & -> & ?)].
  - rewrite IH. split.
    + intros (? & ? & mid & ? & ?). by exists mid.
    + intros (mid & (? & ? & ?) & ?). repeat split; try done. by exists mid.
Qed.

Lemma partitions_le (lo hi : Key) (spans : list (Key * Key)) :
  partitions lo hi spans → key_le lo hi.
Proof.
  revert lo. induction spans as [|[s e] spans IH]; intros lo; simpl.
  - intros ->. done.
  - intros (<- & Hlt & Hrest). trans e; [by right|by apply IH].
Qed.

(** The end keys of a partition increase strictly and lie above its lower
    bound. *)
Lemma partitions_ends_sorted (lo hi : Key) (spans : list (Key * Key)) :
  partitions lo hi spans →
  StronglySorted key_lt spans.*2 ∧ Forall (key_lt lo) spans.*2.
Proof.
  revert lo. induction spans as [|[s e] spans IH]; intros lo; simpl.
  - intros _. split; constructor.
  - intros (<- & Hlt & Hrest). destruct (IH _ Hrest) as [Hs Hf].
    split.
    + by constructor.
    + constructor; [done|].
      eapply Forall_impl; [exact Hf|]. intros x Hx. by trans e.
Qed.

Lemma partitions_inferred (lo hi : Key) (spans : list (Key * Key)) :
  partitions lo hi spans → zip (lo :: spans.*2) spans.*2 = spans.
Proof.
  revert lo. induction spans as [|[s e] spans IH]; intros lo; simpl; [done|].
  intros (<- & _ & Hrest). f_equal. by apply IH.
Qed.

Lemma StronglySorted_key_lt_NoDup (l : list Key) :
  StronglySorted key_lt l → NoDup l.
Proof.
  induction 1 as [|x l Hs IH Hf]; constructor; [|done].
  intros Hin. rewrite Forall_forall in Hf.
  by apply (irreflexivity key_lt x), Hf.
Qed.

Lemma StronglySorted_key_lt_le (l : list Key) :
  StronglySorted key_lt l → Sorted key_le l.
Proof.
  intros Hs. apply StronglySorted_Sorted.
  induction Hs as [|x l Hs IH Hf]; constructor; [done|].
  eapply Forall_impl; [exact Hf|]. intros y. apply key_lt_le.
Qed.

(** A partition covers its interval exactly, each key by one span. *)
Lemma partitions_cover (lo hi : Key) (spans : list (Key * Key)) (k : Key) :
  partitions lo hi spans →
  (key_le lo k ∧ key_lt k hi) ↔ ∃ span, span ∈ spans ∧ in_span k span.
Proof.
  revert lo. induction spans as [|[s e] spans IH]; intros lo; simpl.
  - intros ->. split.
    + intros [Hle Hlt]. by destruct (key_lt_not_le _ _ Hlt).
    + by intros (span & ?%elem_of_nil & _).
  - intros (<- & Hlt & Hrest). specialize (IH _ Hrest).
    pose proof (partitions_le _ _ _ Hrest) as Hehi.
    split.
    + intros [Hle Hkhi].
      destruct (decide (key_lt k e)) as [Hke|Hke].
      * exists (s, e). split; [by left|done].
      * destruct (proj1 IH) as (span & Hin & Hspan).
        { split; [|done]. by destruct (total key_le e k) as [?|[->|?]]. }
        exists span. split; [by right|done].
    + intros (span & [->|Hin]%elem_of_cons & Hle & Hk); simpl in *.
      * split; [done|]. by eapply key_lt_le_trans.
      * destruct (proj2 IH) as [Hek ?]; [by exists span|].
        split; [|done]. trans e; [by right|done].
Qed.

Lemma partitions_disjoint (lo hi : Key) (spans : list (Key * Key))
    (k : Key) (i j : nat) (a b : Key * Key) :
  partitions lo hi spans →
  spans !! i = Some a → spans !! j = Some b →
  in_span k a → in_span k b → i = j.
Proof.
  revert lo i j. induction spans as [|[s e] spans IH]; intros lo i j; simpl.
  { intros _ Hi. by rewrite lookup_nil in Hi. }
  intros (<- & Hlt & Hrest) Hi Hj Ha Hb.
  assert (∀ c, c ∈ spans → in_span k c → key_le e k) as Hlater.
  { intros c Hc Hkc.
    apply (partitions_cover _ _ _ k Hrest). by exists c. }
  destruct i as [|i], j as [|j]; simplify_eq/=; try done.
  - destruct Ha as [_ Hke]. destruct (key_lt_not_le _ _ Hke).
    apply (Hlater b); [|done]. by eapply list_elem_of_lookup_2.
  - destruct Hb as [_ Hke]. destruct (key_lt_not_le _ _ Hke).
    apply (Hlater a); [|done]. by eapply list_elem_of_lookup_2.
  - f_equal. by eapply IH.
Qed.

End KeyOrder.

(** * Properties of the addressing index updater *)

Section AddressingFacts.
Variables KeyMeta1Prefix KeyMeta2Prefix KeyMax : Key.

Local Abbreviation meta1Key' := (meta1Key KeyMeta1Prefix).
Local Abbreviation meta2Key' := (meta2Key KeyMeta2Prefix).
Local Abbreviation in_level1' := (in_level1 KeyMeta1Prefix).
Local Abbreviation in_level2' := (in_level2 KeyMeta2Prefix).
Local Abbreviation in_meta_region' :=
  (in_meta_region KeyMeta1Prefix KeyMeta2Prefix).
Local Abbreviation holds_level2_end' := (holds_level2_end KeyMeta2Prefix).
Local Abbreviation addressing_keys' :=
  (addressing_keys KeyMeta1Prefix KeyMeta2Prefix KeyMax).
Local Abbreviation putMeta' := (putMeta KeyMeta1Prefix KeyMeta2Prefix KeyMax).
Local Abbreviation delMeta' := (delMeta KeyMeta1Prefix KeyMeta2Prefix KeyMax).
Local Abbreviation Split' :=
  (SplitRangeAddressing KeyMeta1Prefix KeyMeta2Prefix KeyMax).
Local Abbreviation Merge' :=
  (MergeRangeAddressing KeyMeta1Prefix KeyMeta2Prefix KeyMax).

(** *** Running a batch *)

Lemma Run_app (calls1 calls2 : list MetaOp) (idx : Index) :
  Run (calls1 ++ calls2) idx = Run calls2 (Run calls1 idx).
Proof. unfold Run. apply foldl_app. Qed.

Lemma lookup_Run_puts (d : RangeDescriptor.t) (keys : list Key)
    (idx : Index) (k : Key) :
  Run ((λ k, PutMeta k d) <$> keys) idx !! k =
  if decide (k ∈ keys) then Some d else idx !! k.
Proof.
  revert idx. induction keys as [|k0 keys IH]; intros idx.
  { by rewrite decide_False by apply not_elem_of_nil. }
  rewrite fmap_cons.
  change (Run (PutMeta k0 d :: ?l) idx) with (Run l (<[k0:=d]> idx)).
  rewrite IH. destruct (decide (k ∈ keys)) as [Hin|Hnin].
  - by rewrite decide_True by (by right).
  - destruct (decide (k = k0)) as [->|Hne].
    + rewrite lookup_insert_eq. by rewrite decide_True by (by left).
    + rewrite lookup_insert_ne by done.
      rewrite decide_False; [done|]. by intros [?|?]%elem_of_cons.
Qed.

Lemma lookup_Run_dels (keys : list Key) (idx : Index) (k : Key) :
  Run (DelMeta <$> keys) idx !! k =
  if decide (k ∈ keys) then None else idx !! k.
Proof.
  revert idx. induction keys as [|k0 keys IH]; intros idx.
  { by rewrite decide_False by apply not_elem_of_nil. }
  rewrite fmap_cons.
  change (Run (DelMeta k0 :: ?l) idx) with (Run l (delete k0 idx)).
  rewrite IH. destruct (decide (k ∈ keys)) as [Hin|Hnin].
  - by rewrite decide_True by (by right).
  - destruct (decide (k = k0)) as [->|Hne].
    + rewrite lookup_delete_eq. by rewrite decide_True by (by left).
    + rewrite lookup_delete_ne by done.
      rewrite decide_False; [done|]. by intros [?|?]%elem_of_cons.
Qed.

(** The index after a legal split: the records of [right], then those of
    [left], then what was there. *)
Lemma lookup_split (left right : RangeDescriptor.t) (idx : Index) (k : Key) :
  in_level1' (RangeDescriptor.EndKey left) = false →
  commit (Split' left right) idx !! k =
  if decide (k ∈ addressing_keys' right)
  then Some right
  else if decide (k ∈ addressing_keys' left)
       then Some left
       else idx !! k.
Proof.
  intros Hlegal. unfold SplitRangeAddressing, commit. rewrite Hlegal.
  unfold putMeta. by rewrite Run_app, !lookup_Run_puts.
Qed.

(** The index after a merge: the records of [merged], the records of
    [left] gone, and otherwise what was there. *)
Lemma lookup_merge (left merged : RangeDescriptor.t) (idx : Index)
    (k : Key) :
  commit (Merge' left merged) idx !! k =
  if decide (k ∈ addressing_keys' merged)
  then Some merged
  else if decide (k ∈ addressing_keys' left)
       then None
       else idx !! k.
Proof.
  unfold MergeRangeAddressing, commit, putMeta, delMeta.
  by rewrite Run_app, lookup_Run_puts, lookup_Run_dels.
Qed.

(** C3.  A split whose boundary [left.EndKey] lies inside the level-1
    prefix is refused with [InvalidSplit]: no operation is returned and the
    index stays as it was. *)
Theorem SplitRangeAddressing_meta1_refused
    (left right : RangeDescriptor.t) (idx : Index) :
  KeyMeta1Prefix `prefix_of` RangeDescriptor.EndKey left →
  Split' left right = ([], Some (InvalidSplit left)) ∧
  commit (Split' left right) idx = idx.
Proof.
  intros Hin. unfold SplitRangeAddressing, in_level1.
  by rewrite bool_decide_eq_true_2.
Qed.

(** The records of the right half of a split are records of the parent,
    unless the split point is a level-2 key while the parent ends outside
    the level-2 region and starts neither at [KeyMin] nor at a level-2
    key. *)
Lemma right_keys_of_parent (idr id0 : Z) (A B C : Key) :
  B ≠ KeyMin →
  (in_level2' B = true → in_level2' C = false →
   A = KeyMin ∨ in_level2' A = true) →
  addressing_keys' (RangeDescriptor.mk idr B C) ⊆
  addressing_keys' (RangeDescriptor.mk id0 A C).
Proof.
  intros HB Hstart. unfold addressing_keys, holds_level2_end.
  cbn [RangeDescriptor.StartKey RangeDescriptor.EndKey].
  destruct (in_level2' C) eqn:HC; [done|].
  rewrite bool_decide_eq_false_2 by done. cbn [orb].
  destruct (in_level2' B) eqn:HB2; last first.
  { rewrite app_nil_r. intros k Hk. rewrite elem_of_cons, elem_of_app.
    apply elem_of_cons in Hk as [->|Hk]; [by left|]. right. by left. }
  destruct (Hstart eq_refl eq_refl) as [->|HA].
  - by rewrite bool_decide_eq_true_2.
  - by rewrite HA, orb_true_r.
Qed.


Hypothesis meta_prefix_length :
  length KeyMeta1Prefix = length KeyMeta2Prefix.
Hypothesis meta_prefix_distinct : KeyMeta1Prefix ≠ KeyMeta2Prefix.

Lemma meta1Key_not_level2 (k : Key) : ¬ KeyMeta2Prefix `prefix_of` meta1Key' k.
Proof.
  intros [k' Heq]. unfold meta1Key, MakeKey in Heq.
  apply app_inj_1 in Heq as [? _]; done.
Qed.

Lemma meta2Key_not_level1 (k : Key) : ¬ KeyMeta1Prefix `prefix_of` meta2Key' k.
Proof.
  intros [k' Heq]. unfold meta2Key, MakeKey in Heq.
  apply app_inj_1 in Heq as [? _]; done.
Qed.

Lemma meta1Key_level1 (k : Key) : KeyMeta1Prefix `prefix_of` meta1Key' k.
Proof. by exists k. Qed.

Lemma meta2Key_level2 (k : Key) : KeyMeta2Prefix `prefix_of` meta2Key' k.
Proof. by exists k. Qed.

Lemma meta2Key_inj (k1 k2 : Key) : meta2Key' k1 = meta2Key' k2 → k1 = k2.
Proof. apply app_inv_head. Qed.

Lemma meta1Key_ne_meta2Key (k1 k2 : Key) : meta1Key' k1 ≠ meta2Key' k2.
Proof.
  intros Heq. apply (meta1Key_not_level2 k1). rewrite Heq.
  apply meta2Key_level2.
Qed.

(** Sort the operations of a batch by level. *)
Ltac sort_levels :=
  repeat first
    [ rewrite filter_nil
    | rewrite filter_cons_True by
        first [apply meta1Key_level1 | apply meta2Key_level2]
    | rewrite filter_cons_False by
        first [apply meta1Key_not_level2 | apply meta2Key_not_level1] ].

Lemma level2_ops_putMeta (d : RangeDescriptor.t) :
  level2_ops KeyMeta2Prefix (putMeta' d) =
  if in_level2' (RangeDescriptor.EndKey d) then []
  else [PutMeta (meta2Key' (RangeDescriptor.EndKey d)) d].
Proof.
  unfold level2_ops, putMeta, addressing_keys.
  destruct (in_level2' (RangeDescriptor.EndKey d)),
    (in_level1' (RangeDescriptor.EndKey d)), (holds_level2_end' d);
    cbn [fmap list_fmap app op_key]; by sort_levels.
Qed.

Lemma level1_ops_putMeta (d : RangeDescriptor.t) :
  level1_ops KeyMeta1Prefix (putMeta' d) =
  if in_level2' (RangeDescriptor.EndKey d)
  then [PutMeta (meta1Key' (drop (length KeyMeta2Prefix)
                              (RangeDescriptor.EndKey d))) d]
  else (if in_level1' (RangeDescriptor.EndKey d)
        then [PutMeta (meta1Key' (RangeDescriptor.EndKey d)) d] else []) ++
       (if holds_level2_end' d then [PutMeta (meta1Key' KeyMax) d] else []).
Proof.
  unfold level1_ops, putMeta, addressing_keys.
  destruct (in_level2' (RangeDescriptor.EndKey d)),
    (in_level1' (RangeDescriptor.EndKey d)), (holds_level2_end' d);
    cbn [fmap list_fmap app op_key]; by sort_levels.
Qed.


Local Abbreviation level2_end_key' := (level2_end_key KeyMeta2Prefix).
Local Abbreviation level2_end_keys' := (level2_end_keys KeyMeta2Prefix).
Local Abbreviation initial' :=
  (initial KeyMeta1Prefix KeyMeta2Prefix KeyMax).
Local Abbreviation addr_step' :=
  (addr_step KeyMeta1Prefix KeyMeta2Prefix KeyMax).
Local Abbreviation addr_inv' := (addr_inv KeyMeta2Prefix KeyMax).
Local Abbreviation reachable' :=
  (reachable KeyMeta1Prefix KeyMeta2Prefix KeyMax).

(** *** The level-2 end keys of an index *)

Lemma level2_end_key_Some (key k : Key) :
  level2_end_key' key = Some k ↔ key = meta2Key' k.
Proof.
  unfold level2_end_key, meta2Key, MakeKey. split.
  - destruct (decide _) as [[k' ->]|]; [|done].
    intros [= <-]. by rewrite drop_app_length.
  - intros ->. rewrite decide_True by (by exists k).
    by rewrite drop_app_length.
Qed.

Lemma elem_of_level2_end_keys (idx : Index) (k : Key) :
  k ∈ omap level2_end_key' (map_to_list idx).*1 ↔
  is_Some (idx !! meta2Key' k).
Proof.
  rewrite list_elem_of_omap. split.
  - intros (key & Hin & Hk). apply level2_end_key_Some in Hk as ->.
    apply list_elem_of_fmap in Hin as ([key v] & -> & Hin).
    apply elem_of_map_to_list in Hin. by exists v.
  - intros [v Hv]. exists (meta2Key' k). split.
    + apply list_elem_of_fmap. exists (meta2Key' k, v).
      split; [done|]. by apply elem_of_map_to_list.
    + by apply level2_end_key_Some.
Qed.

Lemma NoDup_omap_level2 (keys : list Key) :
  NoDup keys → NoDup (omap level2_end_key' keys).
Proof.
  induction 1 as [|key keys Hnin Hnd IH]; simpl; [constructor|].
  destruct (level2_end_key' key) as [k|] eqn:Hk; [|done].
  constructor; [|done]. rewrite list_elem_of_omap.
  intros (key' & Hin & Hk'). apply level2_end_key_Some in Hk, Hk'.
  by subst.
Qed.

Lemma ends_of_spans (rs : list RangeDescriptor.t) :
  (span_of <$> rs).*2 = RangeDescriptor.EndKey <$> rs.
Proof. by rewrite <-list_fmap_compose. Qed.

Lemma StronglySorted_key_lt_filter (P : Key → Prop)
    `{!∀ k, Decision (P k)} (l : list Key) :
  StronglySorted key_lt l → StronglySorted key_lt (filter P l).
Proof.
  induction 1 as [|x l Hs IH Hf]; [constructor|].
  rewrite filter_cons. case_decide; [|done].
  constructor; [done|]. rewrite Forall_forall in Hf.
  apply Forall_forall. intros y [_ Hy]%list_elem_of_filter. by apply Hf.
Qed.

(** Under the invariant the level-2 end keys, in key order, are the end
    keys of the live ranges that end outside the level-2 region. *)
Lemma addr_inv_end_keys (st : AddrState) :
  addr_inv' st →
  level2_end_keys' (index st) =
  filter (λ k, in_level2' k = false) (RangeDescriptor.EndKey <$> ranges st).
Proof.
  intros [Hpart Hidx].
  destruct (partitions_ends_sorted _ _ _ Hpart) as [Hsorted _].
  rewrite ends_of_spans in Hsorted.
  unfold level2_end_keys. apply (Sorted_unique key_le).
  - apply Sorted_merge_sort; apply _.
  - by apply StronglySorted_key_lt_le, StronglySorted_key_lt_filter.
  - rewrite merge_sort_Permutation. apply NoDup_Permutation.
    + apply NoDup_omap_level2, NoDup_fst_map_to_list.
    + by apply NoDup_filter, StronglySorted_key_lt_NoDup.
    + intros k. rewrite elem_of_level2_end_keys, list_elem_of_filter, Hidx.
      tauto.
Qed.

Lemma meta2Key_addressing_keys (k : Key) (d : RangeDescriptor.t) :
  meta2Key' k ∈ addressing_keys' d ↔
  k = RangeDescriptor.EndKey d ∧ in_level2' (RangeDescriptor.EndKey d) = false.
Proof.
  unfold addressing_keys.
  destruct (in_level2' (RangeDescriptor.EndKey d)) eqn:HE.
  - rewrite list_elem_of_singleton. split; [|by intros [_ ?]].
    intros Heq. by destruct (meta1Key_ne_meta2Key _ _ (eq_sym Heq)).
  - rewrite elem_of_cons, elem_of_app. split.
    + intros [Heq|[Hin|Hin]]; [split; [by apply meta2Key_inj|done]|..].
      * destruct (in_level1' _); [|by apply elem_of_nil in Hin].
        apply list_elem_of_singleton in Hin.
        by destruct (meta1Key_ne_meta2Key _ _ (eq_sym Hin)).
      * destruct (holds_level2_end' _); [|by apply elem_of_nil in Hin].
        apply list_elem_of_singleton in Hin.
        by destruct (meta1Key_ne_meta2Key _ _ (eq_sym Hin)).
    + intros [-> _]. by left.
Qed.

(** Turn membership of a level-2 key among addressing keys into an
    equation between end keys. *)
Ltac level2_membership :=
  repeat match goal with
  | H : context [meta2Key _ _ ∈ addressing_keys _ _ _ _] |- _ =>
      rewrite meta2Key_addressing_keys in H
  end.

Hypothesis KeyMax_above : key_lt KeyMin KeyMax.
Hypothesis KeyMax_not_level2 : ¬ KeyMeta2Prefix `prefix_of` KeyMax.

Lemma addr_inv_initial (d0 : RangeDescriptor.t) :
  full_keyspace KeyMax d0 → addr_inv' (initial' d0).
Proof.
  intros [Hs He]. split; simpl.
  - rewrite Hs, He. done.
  - intros k. rewrite He, list_elem_of_singleton.
    rewrite lookup_insert_ne by apply meta1Key_ne_meta2Key.
    split.
    + intros [v Hv]. apply lookup_insert_Some in Hv as [[Hk _]|[_ Hv]].
      * apply meta2Key_inj in Hk as <-. split; [done|].
        unfold in_level2. by rewrite bool_decide_eq_false_2.
      * by rewrite lookup_empty in Hv.
    + intros [-> _]. rewrite lookup_insert_eq. by eexists.
Qed.

Lemma addr_inv_step (st st' : AddrState) :
  addr_inv' st → addr_step' st st' → addr_inv' st'.
Proof.
  intros [Hpart Hidx] Hstep.
  destruct Hstep as
    [pre d post idx left right calls Hls Hlr Hre HlB HBr Hsplit
    |pre left right post idx merged calls Hms Hme Hmerge];
    unfold addr_inv; cbn [ranges index] in *.
  - (* split *)
    assert (in_level1' (RangeDescriptor.EndKey left) = false) as Hlegal.
    { unfold SplitRangeAddressing in Hsplit.
      by destruct (in_level1' (RangeDescriptor.EndKey left)). }
    assert (Run calls idx = commit (Split' left right) idx) as ->.
    { by rewrite Hsplit. }
    rewrite fmap_app, fmap_cons, partitions_app in Hpart.
    destruct Hpart as (mid & Hpre & Hmid & Hlt & Hpost).
    cbn [span_of fst snd] in *.
    split.
    + rewrite fmap_app, !fmap_cons, partitions_app.
      exists mid. split; [done|]. cbn [partitions span_of fst snd].
      rewrite Hls, <-Hlr, Hre. by repeat split.
    + intros k. rewrite lookup_split by done.
      specialize (Hidx k). rewrite fmap_app, fmap_cons in Hidx.
      rewrite fmap_app, !fmap_cons.
      rewrite elem_of_app, elem_of_cons in Hidx.
      rewrite elem_of_app, !elem_of_cons, Hre.
      repeat case_decide; level2_membership; rewrite ?Hre in *.
      * split; [|by eexists]. intros _. destruct H as [-> ?]. tauto.
      * split; [|by eexists]. intros _. destruct H0 as [-> ?]. tauto.
      * rewrite Hidx. split.
        -- intros [[?|[->|?]] ?]; tauto.
        -- intros [[?|[->|[->|?]]] ?]; tauto.
  - (* merge *)
    assert (Run calls idx = commit (Merge' left merged) idx) as ->.
    { by rewrite Hmerge. }
    pose proof Hpart as Hnd.
    apply partitions_ends_sorted in Hnd as [Hnd _].
    apply StronglySorted_key_lt_NoDup in Hnd.
    rewrite ends_of_spans, fmap_app, !fmap_cons in Hnd.
    apply NoDup_app in Hnd as (_ & Hpre_nin & Hnd).
    apply NoDup_cons in Hnd as [Hleft_nin _].
    rewrite fmap_app, !fmap_cons, partitions_app in Hpart.
    destruct Hpart as (mid & Hpre & Hmid & Hlt & Hadj & Hlt' & Hpost).
    cbn [span_of fst snd] in *. split.
    + rewrite fmap_app, !fmap_cons, partitions_app.
      exists mid. split; [done|]. cbn [partitions span_of fst snd].
      rewrite Hms, Hme. repeat split; try done.
      trans (RangeDescriptor.EndKey left); [done|]. by rewrite <-Hadj.
    + intros k. rewrite lookup_merge.
      specialize (Hidx k). rewrite fmap_app, !fmap_cons in Hidx.
      rewrite fmap_app, !fmap_cons.
      rewrite elem_of_app, !elem_of_cons in Hidx.
      rewrite elem_of_app, !elem_of_cons, Hme.
      rewrite elem_of_cons in Hleft_nin.
      repeat case_decide; level2_membership; rewrite ?Hme in *.
      * split; [|by eexists]. intros _. destruct H as [-> ?]. tauto.
      * split; [by intros []|]. destruct H0 as [-> _].
        intros [[Hin|[?|Hin]] _]; [by destruct (Hpre_nin _ Hin); left|tauto|].
        destruct Hleft_nin. by right.
      * rewrite Hidx. split.
        -- intros [[?|[->|[->|?]]] ?]; tauto.
        -- intros [[?|[->|?]] ?]; tauto.
Qed.

Lemma addr_inv_reachable (d0 : RangeDescriptor.t) (st : AddrState) :
  full_keyspace KeyMax d0 → reachable' d0 st → addr_inv' st.
Proof.
  intros Hfull Hreach. unfold reachable in Hreach.
  revert st Hreach. apply rtc_ind_r.
  - by apply addr_inv_initial.
  - intros st st' _ Hstep Hinv. by eapply addr_inv_step.
Qed.

(** The spans between consecutive keys of an ascending list that ends in
    [hi] partition [[lo, hi)]. *)
Lemma partitions_of_ends (lo hi : Key) (ends : list Key) :
  StronglySorted key_lt ends → Forall (key_lt lo) ends →
  last ends = Some hi →
  partitions lo hi (zip (lo :: ends) ends).
Proof.
  intros Hs. revert lo. induction Hs as [|e rest Hs IH Hf]; intros lo Hlo Hlast;
    [done|].
  apply Forall_cons in Hlo as [Hlo _].
  cbn [zip zip_with partitions fst snd]. split; [done|]. split; [done|].
  destruct rest as [|e' rest].
  - cbn in Hlast. by injection Hlast as ->.
  - by apply IH.
Qed.

Lemma partitions_last (lo hi : Key) (spans : list (Key * Key)) :
  partitions lo hi spans → lo ≠ hi → last spans.*2 = Some hi.
Proof.
  revert lo. induction spans as [|[s e] spans IH]; intros lo; cbn [partitions].
  - by intros ->.
  - intros (_ & _ & Hrest) _. cbn [fst snd] in Hrest.
    destruct spans as [|span spans].
    + cbn in Hrest. by rewrite Hrest.
    + rewrite fmap_cons. cbn [snd]. rewrite last_cons.
      rewrite (IH e); [done|done|].
      destruct span as [s' e']. cbn in Hrest.
      destruct Hrest as (<- & Hlt & Hrest). intros ->.
      apply partitions_le in Hrest. by apply (key_lt_not_le _ _ Hlt).
Qed.

(** C5.  After every sequence of valid splits and merges that starts from
    the single full-keyspace range, the spans between consecutive level-2
    end keys of the index partition [[KeyMin, KeyMax)]: they follow one
    another without gap from [KeyMin] to [KeyMax], every key of that
    interval lies in one of them, no other key does, and no key lies in
    two. *)
Theorem level2_spans_partition_keyspace
    (d0 : RangeDescriptor.t) (st : AddrState) :
  full_keyspace KeyMax d0 →
  reachable' d0 st →
  let spans := inferred_spans (level2_end_keys' (index st)) in
  partitions KeyMin KeyMax spans ∧
  (∀ k : Key, (key_le KeyMin k ∧ key_lt k KeyMax) ↔
              ∃ span, span ∈ spans ∧ in_span k span) ∧
  (∀ (k : Key) i j a b,
     spans !! i = Some a → spans !! j = Some b →
     in_span k a → in_span k b → i = j).
Proof.
  intros Hfull Hreach spans.
  pose proof (addr_inv_reachable _ _ Hfull Hreach) as Hinv.
  assert (partitions KeyMin KeyMax spans) as Hpart.
  { unfold spans, inferred_spans.
    rewrite (addr_inv_end_keys _ Hinv). destruct Hinv as [Hpart _].
    destruct (partitions_ends_sorted _ _ _ Hpart) as [Hsorted Hlo].
    pose proof (partitions_last _ _ _ Hpart) as Hlast.
    rewrite ends_of_spans in Hsorted, Hlo, Hlast.
    apply partitions_of_ends.
    - by apply StronglySorted_key_lt_filter.
    - rewrite Forall_forall in Hlo. apply Forall_forall.
      intros k [_ Hk]%list_elem_of_filter. by apply Hlo.
    - destruct (proj1 (last_Some _ _) (Hlast ltac:(intros Heq;
        rewrite <-Heq in KeyMax_above;
        by apply (irreflexivity key_lt KeyMin)))) as [l' Hl'].
      rewrite Hl', filter_app, filter_cons_True, filter_nil.
      + apply last_snoc.
      + unfold in_level2. by rewrite bool_decide_eq_false_2. }
  split; [done|]. split.
  - intros k. by apply (partitions_cover KeyMin KeyMax).
  - intros k i j a b. by apply (partitions_disjoint KeyMin KeyMax).
Qed.

End AddressingFacts.


(** * The statements at the sample inputs *)

(** C1 at a call routed by hint to a store that answers every command with a
    mismatch: two executions, the mismatch on the reply. *)
Lemma Send_two_mismatches_witness :
  let r := Send Sample.lookup_always Sample.exec_mismatch Sample.map_order
             Sample.registry1 () (Sample.call_of Sample.header_hint) in
  ex_err <$> executions r.2 = [Some Sample.mismatch; Some Sample.mismatch] ∧
  Response.Error (Call.Reply r.1.1) = Some Sample.mismatch ∧
  length (executions r.2) = 2%nat ∧
  length r.2 = 2%nat.
Proof.
  intros r. split; [by vm_compute|].
  apply (Send_two_mismatches_then_surface
           Sample.lookup_always Sample.exec_mismatch Sample.map_order
           Sample.registry1 () (Sample.call_of Sample.header_hint)
           r.1.1 r.1.2 r.2 Sample.mismatch Sample.mismatch []);
    by vm_compute.
Defined.

(** C6 at a second handle for store identifier 1. *)
Lemma AddStore_twice_witness :
  storeMap Sample.registry1 !! 1 = Some Sample.store1 ∧
  AddStore Sample.registry1 Sample.store1_again =
    (Sample.registry1,
     Some (cannot_add_store_twice (Ident Sample.store1_again))) ∧
  GetStore (AddStore Sample.registry1 Sample.store1_again).1 1 =
    inl Sample.store1.
Proof.
  split; [by vm_compute|].
  apply (AddStore_twice_panics Sample.registry1 Sample.store1_again
           Sample.store1).
  by vm_compute.
Defined.

(** C7 at a transactional call whose replica is on the certain node 1, with
    stores that answer with a mismatch, so that the closure runs twice. *)
Lemma Send_MaxTimestamp_witness :
  let call := Sample.call_of Sample.header_hint in
  let r := Send Sample.lookup_always Sample.exec_mismatch Sample.map_order
             Sample.registry1 () call in
  RequestHeader.Txn (Request.Header (Call.Args call)) = Some Sample.txn1 ∧
  (λ ex, Transaction.MaxTimestamp <$>
           RequestHeader.Txn (Request.Header (ex_args ex)))
    <$> executions r.2 = [Some (Timestamp.mk 5 0); Some (Timestamp.mk 5 0)] ∧
  RequestHeader.Txn (Request.Header (Call.Args r.1.1)) = Some Sample.txn1 ∧
  Forall (λ a,
    RequestHeader.Txn (at_entry a) = Some Sample.txn1 ∧
    RequestHeader.Txn (at_exit a) = Some Sample.txn1 ∧
    ∀ ex, at_exec a = Some ex →
      Replica.NodeID (RequestHeader.Replica (Request.Header (ex_args ex)))
        ∈ Transaction.CertainNodes Sample.txn1 →
      RequestHeader.Txn (Request.Header (ex_args ex)) =
      Some (Transaction.set_MaxTimestamp
              (Transaction.Timestamp Sample.txn1) Sample.txn1))
    r.2.
Proof.
  intros call r. split; [reflexivity|]. split; [by vm_compute|].
  apply (Send_MaxTimestamp_scoped
           Sample.lookup_always Sample.exec_mismatch Sample.map_order
           Sample.registry1 () call Sample.txn1).
  reflexivity.
Defined.

(** C8 at a call routed by hint to store 5, which is not registered. *)
Lemma GetStore_not_found_witness :
  ∃ call' log,
    Send Sample.lookup_always Sample.exec_mismatch Sample.map_order
      Sample.registry1 () (Sample.call_of Sample.header_store5)
      = (call', (), [log]) ∧
    Response.Error (Call.Reply call') = Some (Errorf_store_not_found 5) ∧
    at_exec log = None ∧ at_status log = RetryBreak.
Proof.
  apply (proj2 (proj2 (GetStore_not_found_no_retry
           Sample.lookup_always Sample.exec_mismatch Sample.map_order
           Sample.registry1))
           () (Sample.call_of Sample.header_store5) Sample.header_store5);
    by vm_compute.
Defined.

(** C10 at a call without a hint, with stores that host no span. *)
Lemma Send_lookup_mismatch_witness :
  ∃ call' log,
    Send Sample.lookup_never Sample.exec_mismatch Sample.map_order
      Sample.registry1 () (Sample.call_of Sample.header_no_hint)
      = (call', (), [log]) ∧
    Response.Error (Call.Reply call') =
      Some (RangeKeyMismatchError [97%N] [] None) ∧
    Request.Header (Call.Args call') = Sample.header_no_hint ∧
    at_exec log = None ∧ at_status log = RetryBreak.
Proof.
  apply (proj1 (Send_lookup_mismatch_single_attempt
           Sample.lookup_never Sample.exec_mismatch Sample.map_order
           (λ w m, reflexivity (map_to_list m))
           Sample.registry1 () (Sample.call_of Sample.header_no_hint)
           (or_introl eq_refl)
           (λ id store _, eq_refl))).
Defined.

(** C3 at the split of the test: the boundary is the level-1 key of "a". *)
Lemma SplitRangeAddressing_meta1_witness :
  let left := RangeDescriptor.mk 0 KeyMin
                (meta1Key Sample.KeyMeta1Prefix Sample.key_a) in
  let right := RangeDescriptor.mk 0
                 (meta1Key Sample.KeyMeta1Prefix Sample.key_a) Sample.KeyMax in
  SplitRangeAddressing Sample.KeyMeta1Prefix Sample.KeyMeta2Prefix
    Sample.KeyMax left right
    = ([], Some (InvalidSplit left)) ∧
  commit (SplitRangeAddressing Sample.KeyMeta1Prefix Sample.KeyMeta2Prefix
            Sample.KeyMax left right) Sample.index_a_z = Sample.index_a_z.
Proof.
  intros left right.
  apply (SplitRangeAddressing_meta1_refused
           Sample.KeyMeta1Prefix Sample.KeyMeta2Prefix Sample.KeyMax
           left right Sample.index_a_z).
  by exists Sample.key_a.
Defined.




Lemma split_at_meta2_m_reachable :
  reachable Sample.KeyMeta1Prefix Sample.KeyMeta2Prefix Sample.KeyMax
    Sample.whole Sample.split_at_meta2_m.
Proof.
  unfold reachable.
  eapply rtc_l; [|eapply rtc_l; [|apply rtc_refl]].
  - apply (step_split Sample.KeyMeta1Prefix Sample.KeyMeta2Prefix
             Sample.KeyMax [] Sample.whole [] _ Sample.left_a Sample.right_a);
      try (by vm_compute).
    vm_compute. by left.
  - apply (step_split Sample.KeyMeta1Prefix Sample.KeyMeta2Prefix
             Sample.KeyMax [] Sample.left_a [Sample.right_a] _
             Sample.left_m Sample.right_m);
      try (by vm_compute).
    vm_compute. by left.
Defined.

(** C5 at the state of the test after the split of the full-keyspace range
    at "a" and the split of its left half at the level-2 key of "m": three
    live ranges, and the two level-2 spans from [KeyMin] to "a" and from
    "a" to [KeyMax]. *)
Lemma level2_spans_partition_witness :
  let spans :=
    inferred_spans
      (level2_end_keys Sample.KeyMeta2Prefix
         (index Sample.split_at_meta2_m)) in
  spans = [(KeyMin, Sample.key_a); (Sample.key_a, Sample.KeyMax)] ∧
  partitions KeyMin Sample.KeyMax spans ∧
  (∀ k : Key, (key_le KeyMin k ∧ key_lt k Sample.KeyMax) ↔
              ∃ span, span ∈ spans ∧ in_span k span) ∧
  (∀ (k : Key) i j a b,
     spans !! i = Some a → spans !! j = Some b →
     in_span k a → in_span k b → i = j).
Proof.
  intros spans. split; [by vm_compute|].
  apply (level2_spans_partition_keyspace
           Sample.KeyMeta1Prefix Sample.KeyMeta2Prefix Sample.KeyMax
           eq_refl ltac:(done) ltac:(by vm_compute) ltac:(by intros [? [=]])
           Sample.whole Sample.split_at_meta2_m).
  - by vm_compute.
  - exact split_at_meta2_m_reachable.
Defined.

(** * Further properties of the registry *)

(** Adding a store under a free identifier succeeds; afterwards [GetStore]
    and [HasStore] find it, the count has grown by one and every other
    identifier resolves as before. *)
Theorem AddStore_fresh_registers (ls : LocalSender) (s : Store) :
  storeMap ls !! StoreIdent.StoreID (Ident s) = None →
  (AddStore ls s).2 = None ∧
  GetStore (AddStore ls s).1 (StoreIdent.StoreID (Ident s)) = inl s ∧
  HasStore (AddStore ls s).1 (StoreIdent.StoreID (Ident s)) = true ∧
  GetStoreCount (AddStore ls s).1 = S (GetStoreCount ls) ∧
  (∀ id, id ≠ StoreIdent.StoreID (Ident s) →
     GetStore (AddStore ls s).1 id = GetStore ls id ∧
     HasStore (AddStore ls s).1 id = HasStore ls id).
Proof.
  intros Hfree. unfold AddStore, GetStore, HasStore, GetStoreCount.
  rewrite Hfree. cbn [fst snd storeMap].
  rewrite lookup_insert_eq. repeat split.
  - by apply map_size_insert_None.
  - by rewrite lookup_insert_ne.
  - by rewrite lookup_insert_ne.
Qed.

Lemma AddStores_lookup (stores : list Store) (ls ls' : LocalSender) :
  AddStores ls stores = (ls', None) →
  NoDup (StoreIdent.StoreID ∘ Ident <$> stores) ∧
  (∀ s, s ∈ stores → storeMap ls !! StoreIdent.StoreID (Ident s) = None) ∧
  (∀ id s, storeMap ls' !! id = Some s ↔
     storeMap ls !! id = Some s ∨
     (s ∈ stores ∧ StoreIdent.StoreID (Ident s) = id)) ∧
  GetStoreCount ls' = (GetStoreCount ls + length stores)%nat.
Proof.
  revert ls. induction stores as [|s0 rest IH]; intros ls; cbn [AddStores].
  - intros [= <-]. split; [constructor|]. split; [by intros s ?%elem_of_nil|].
    split; [|simpl; lia]. intros id s. split; [by left|].
    by intros [?|[?%elem_of_nil _]].
  - unfold AddStore at 1.
    destruct (storeMap ls !! StoreIdent.StoreID (Ident s0)) eqn:Hs0; [done|].
    intros Hrest. apply IH in Hrest as (Hnd & Hfree & Hlook & Hcount).
    cbn [storeMap] in *.
    assert (∀ s, s ∈ rest →
              StoreIdent.StoreID (Ident s) ≠ StoreIdent.StoreID (Ident s0))
      as Hne.
    { intros s Hin Heq. specialize (Hfree s Hin).
      by rewrite Heq, lookup_insert_eq in Hfree. }
    split; [|split; [|split]].
    + rewrite fmap_cons. constructor; [|done].
      intros (s & Heq & Hin)%list_elem_of_fmap. by apply (Hne s).
    + intros s [->|Hin]%elem_of_cons; [done|].
      specialize (Hfree s Hin).
      by rewrite lookup_insert_ne in Hfree by (symmetry; by apply Hne).
    + intros id s. rewrite Hlook, elem_of_cons. split.
      * intros [Hins|[Hin Hid]]; [|by right; split; [right|]].
        apply lookup_insert_Some in Hins as [[<- <-]|[_ ?]]; [|by left].
        right. split; [by left|done].
      * intros [Hold|[[->|Hin] Hid]].
        -- left. rewrite lookup_insert_ne; [done|]. intros <-. congruence.
        -- left. subst id. by rewrite lookup_insert_eq.
        -- by right.
    + rewrite Hcount. unfold GetStoreCount. cbn [storeMap].
      rewrite map_size_insert_None by done. simpl. lia.
Qed.

Lemma AddStores_NoDup (stores : list Store) (ls : LocalSender) :
  NoDup (StoreIdent.StoreID ∘ Ident <$> stores) →
  (∀ s, s ∈ stores → storeMap ls !! StoreIdent.StoreID (Ident s) = None) →
  (AddStores ls stores).2 = None.
Proof.
  revert ls. induction stores as [|s0 rest IH]; intros ls; cbn [AddStores];
    [done|].
  rewrite fmap_cons. intros [Hnin Hnd]%NoDup_cons Hfree.
  unfold AddStore at 1. rewrite (Hfree s0) by (by left).
  apply IH; [done|]. intros s Hin. cbn [storeMap].
  rewrite lookup_insert_ne; [apply Hfree; by right|].
  intros Heq. apply Hnin. apply list_elem_of_fmap. by exists s.
Qed.

(** Registering stores one after another on a new sender goes without a
    panic exactly when their identifiers are pairwise distinct; the registry
    then maps each identifier to the store registered under it and to
    nothing else, and [GetStoreCount] is the number of stores. *)
Theorem AddStores_distinct_identifiers (stores : list Store) :
  ((AddStores NewLocalSender stores).2 = None ↔
   NoDup (StoreIdent.StoreID ∘ Ident <$> stores)) ∧
  ((AddStores NewLocalSender stores).2 = None →
   (∀ id s, GetStore (AddStores NewLocalSender stores).1 id = inl s ↔
            s ∈ stores ∧ StoreIdent.StoreID (Ident s) = id) ∧
   (∀ id, HasStore (AddStores NewLocalSender stores).1 id = true ↔
          id ∈ StoreIdent.StoreID ∘ Ident <$> stores) ∧
   GetStoreCount (AddStores NewLocalSender stores).1 = length stores).
Proof.
  destruct (AddStores NewLocalSender stores) as [ls' p] eqn:Hadd.
  cbn [fst snd]. split.
  - split.
    + intros ->. by apply AddStores_lookup in Hadd as [? _].
    + intros Hnd.
      pose proof (AddStores_NoDup stores NewLocalSender Hnd) as Hnone.
      rewrite Hadd in Hnone. apply Hnone. intros s _. apply lookup_empty.
  - intros ->. apply AddStores_lookup in Hadd as (_ & _ & Hlook & Hcount).
    assert (∀ id s, storeMap ls' !! id = Some s ↔
                    s ∈ stores ∧ StoreIdent.StoreID (Ident s) = id) as Hl.
    { intros id s. rewrite Hlook. cbn [storeMap NewLocalSender].
      rewrite lookup_empty. split; [by intros [?|?]|by right]. }
    split; [|split].
    + intros id s. rewrite <-Hl. unfold GetStore.
      destruct (storeMap ls' !! id); split; intros; by simplify_eq.
    + intros id. unfold HasStore. rewrite list_elem_of_fmap.
      destruct (storeMap ls' !! id) as [s|] eqn:Hs.
      * apply Hl in Hs as [Hin Hid]. split; [|done]. intros _. by exists s.
      * split; [done|]. intros (s & -> & Hin).
        assert (storeMap ls' !! StoreIdent.StoreID (Ident s) = Some s) as Hsome
          by by apply Hl.
        simpl in Hs. congruence.
    + rewrite Hcount. unfold GetStoreCount. cbn [storeMap NewLocalSender].
      by rewrite map_size_empty.
Qed.

(** * Further properties of the local sender *)

(** The visitor loop: the stores visited and the stores left out make up
    the list in order; without an error nothing is left out; an error is the
    one the visitor returned on the last store visited, every earlier call
    having returned none. *)
Lemma visit_loop_spec {St E : Type} (visitor : Store → St → option E * St)
    (stores : list Store) (st st' : St) (err : option E)
    (visited : list Store) :
  visit_loop visitor stores st = (err, st', visited) →
  visited `prefix_of` stores ∧
  (err = None → visited = stores) ∧
  (∀ e, err = Some e →
     ∃ pre s st_k,
       visited = pre ++ [s] ∧
       visit_loop visitor pre st = (None, st_k, pre) ∧
       visitor s st_k = (Some e, st')).
Proof.
  revert st st' err visited.
  induction stores as [|s0 rest IH]; intros st st' err visited; cbn [visit_loop].
  - intros [= <- <- <-]. split; [done|]. split; [done|]. by intros e.
  - destruct (visitor s0 st) as [[e0|] st0] eqn:Hv.
    + intros [= <- <- <-]. split; [by exists rest|]. split; [done|].
      intros e [= <-]. by exists [], s0, st.
    + destruct (visit_loop visitor rest st0) as [[err0 st1] vis0] eqn:Hloop.
      intros [= <- <- <-].
      destruct (IH _ _ _ _ Hloop) as (Hpre & Hall & Herr).
      split; [by apply prefix_cons|]. split.
      * intros ->. f_equal. by apply Hall.
      * intros e ->. destruct (Herr e eq_refl) as (pre & s & st_k & -> & Hp & Hs).
        exists (s0 :: pre), s, st_k. split; [done|]. split; [|done].
        cbn [visit_loop]. by rewrite Hv, Hp.
Qed.

Section RoutingMore.
Context {World : Type}.
Variable LookupRange : World → Store → Key → Key → option Range.
Variable ExecuteCmd :
  Store → string → Request.t → Response.t → World →
  option GoError * Response.t * World.
Variable map_range : World → gmap Z Store → list (Z * Store).

Local Abbreviation resolve' := (resolve LookupRange map_range).
Local Abbreviation lookupReplica' := (lookupReplica LookupRange map_range).
Local Abbreviation attempt' := (attempt LookupRange ExecuteCmd map_range).
Local Abbreviation Send' := (Send LookupRange ExecuteCmd map_range).

(** A property of the calls and of the runs of the closure holds throughout
    [Send] when every run keeps it. *)
Lemma Send_runs_ind (I : Call.t → Prop) (P : AttemptLog → Prop) ls w call :
  I call →
  (∀ c w0 s c' w0' l,
     I c → attempt' ls (c, w0) = (s, (c', w0'), l) → I c' ∧ P l) →
  I (Send' ls w call).1.1 ∧ Forall P (Send' ls w call).2.
Proof.
  intros HI Hstep. rewrite Send_unfold.
  destruct (attempt' ls (call, w)) as [[s1 [c1 w1]] l1] eqn:H1.
  destruct (Hstep _ _ _ _ _ _ HI H1) as [HI1 HP1].
  destruct s1; cbn [fst snd].
  { split; [done|]. by apply Forall_cons. }
  destruct (attempt' ls (c1, w1)) as [[s2 [c2 w2]] l2] eqn:H2.
  destruct (Hstep _ _ _ _ _ _ HI1 H2) as [HI2 HP2].
  cbn [fst snd]. split; [done|].
  apply Forall_cons; split; [done|]. by apply Forall_cons.
Qed.

(** What a run that reached the store returns: the reply written by the
    store, with the store's error set on it when there is one, and the
    header with the replica cleared exactly when the error is a mismatch. *)
Lemma attempt_exec_result ls call w status call' w' log ex :
  attempt' ls (call, w) = (status, (call', w'), log) →
  at_exec log = Some ex →
  ∃ reply1,
    ExecuteCmd (ex_store ex) (Call.Method call) (ex_args ex)
      (Response.set_Error None (Call.Reply call)) w
      = (ex_err ex, reply1, w') ∧
    Call.Reply call' =
      match ex_err ex with
      | Some e => Response.SetGoError e reply1
      | None => reply1
      end ∧
    Request.Method (Call.Args call') = Request.Method (Call.Args call) ∧
    Request.Body (Call.Args call') = Request.Body (Call.Args call) ∧
    RequestHeader.RaftID (Request.Header (Call.Args call')) =
      RequestHeader.RaftID (Request.Header (ex_args ex)) ∧
    RequestHeader.Replica (Request.Header (Call.Args call')) =
      (if status is RetryContinue then Replica.zero
       else RequestHeader.Replica (Request.Header (ex_args ex))).
Proof.
  unfold attempt, GetStore, Call.Method. intros Ha Hex.
  destruct (resolve' _ _ _) as [header err] eqn:Hr.
  repeat case_match; simplify_eq/=; eexists; (split; [done|]);
    (split; [done|]); (split; [done|]); (split; [done|]);
    unfold run_deferred, set_Txn_MaxTimestamp;
    repeat case_match; done.
Qed.

(** The fields of the request that no run of the closure touches. *)
Lemma attempt_request_frame ls call w status call' w' log :
  attempt' ls (call, w) = (status, (call', w'), log) →
  let same (a : Request.t) :=
    Request.Method a = Request.Method (Call.Args call) ∧
    Request.Body a = Request.Body (Call.Args call) ∧
    RequestHeader.Key (Request.Header a) =
      RequestHeader.Key (Request.Header (Call.Args call)) ∧
    RequestHeader.EndKey (Request.Header a) =
      RequestHeader.EndKey (Request.Header (Call.Args call)) in
  same (Call.Args call') ∧ ∀ ex, at_exec log = Some ex → same (ex_args ex).
Proof.
  intros Ha same. subst same. cbv beta.
  unfold attempt, resolve, lookupReplica, GetStore in Ha.
  repeat case_match; simplify_eq/=;
    unfold run_deferred, narrow, set_Txn_MaxTimestamp;
    repeat case_match; simplify_eq/=;
    (split; [done|]); intros ex Hex; by simplify_eq/=.
Qed.

(** [Send] runs the closure once or twice, and a second time exactly when
    the store call of the first run returned a mismatch error. *)
Theorem Send_one_or_two_runs ls w call :
  ∃ l1 rest,
    (Send' ls w call).2 = l1 :: rest ∧
    (rest = [] ∨ ∃ l2, rest = [l2]) ∧
    (rest ≠ [] ↔
     ∃ ex e, at_exec l1 = Some ex ∧ ex_err ex = Some e ∧
             is_RangeKeyMismatchError e = true).
Proof.
  rewrite Send_unfold.
  destruct (attempt' ls (call, w)) as [[s1 [c1 w1]] l1] eqn:H1.
  assert (s1 = RetryContinue ↔
          ∃ ex e, at_exec l1 = Some ex ∧ ex_err ex = Some e ∧
                  is_RangeKeyMismatchError e = true) as Hcont.
  { destruct (at_exec l1) as [ex|] eqn:Hex.
    - destruct (attempt_exec _ _ _ _ _ _ _ _ _ _ _ H1 Hex)
        as (h & r1 & _ & _ & _ & _ & _ & Hc).
      rewrite Hc. split.
      + intros (e & ? & ?). by exists ex, e.
      + intros (ex' & e & [= <-] & ? & ?). by exists e.
    - destruct (attempt_no_exec _ _ _ _ _ _ _ _ _ _ H1 Hex) as [-> _].
      split; [done|]. by intros (? & ? & ? & _). }
  destruct s1; cbn [snd].
  - exists l1, []. split; [done|]. split; [by left|].
    rewrite <-Hcont. by split.
  - destruct (attempt' ls (c1, w1)) as [[s2 [c2 w2]] l2] eqn:H2.
    exists l1, [l2]. split; [done|]. split; [right; by exists l2|].
    rewrite <-Hcont. by split.
Qed.

(** When the first store call returns no error, or an error that is not a
    mismatch, [Send] ends after that single run: the store was called with
    the error of the reply cleared, and the reply returned is the one the
    store wrote, with the store's error set on it when there is one. *)
Theorem Send_no_retry_without_mismatch ls w call l1 ex :
  head (Send' ls w call).2 = Some l1 →
  at_exec l1 = Some ex →
  (∀ e, ex_err ex = Some e → is_RangeKeyMismatchError e = false) →
  (Send' ls w call).2 = [l1] ∧
  ∃ reply1,
    ExecuteCmd (ex_store ex) (Call.Method call) (ex_args ex)
      (Response.set_Error None (Call.Reply call)) w
      = (ex_err ex, reply1, (Send' ls w call).1.2) ∧
    Call.Reply (Send' ls w call).1.1 =
      match ex_err ex with
      | Some e => Response.SetGoError e reply1
      | None => reply1
      end.
Proof.
  rewrite Send_unfold.
  destruct (attempt' ls (call, w)) as [[s1 [c1 w1]] l1'] eqn:H1.
  intros Hhead Hex Hnm.
  assert (l1' = l1) as ->.
  { destruct s1; [by simplify_eq/=|].
    destruct (attempt' ls (c1, w1)) as [[s2 [c2 w2]] l2]. by simplify_eq/=. }
  destruct (attempt_exec _ _ _ _ _ _ _ _ _ _ _ H1 Hex)
    as (h & r1 & _ & _ & _ & _ & _ & Hc).
  destruct s1; last first.
  { destruct (proj1 Hc eq_refl) as (e & He & Hm).
    rewrite (Hnm e He) in Hm. done. }
  cbn [fst snd]. split; [done|].
  destruct (attempt_exec_result _ _ _ _ _ _ _ _ H1 Hex) as (reply1 & ? & ? & _).
  by exists reply1.
Qed.

(** After a run that asked for a retry the replica of the request is
    cleared, so the second run looks the replica up although the range
    identifier is still set; when no registered store hosts the span any
    more, [Send] returns the mismatch error of that lookup after a single
    store call. *)
Theorem Send_retry_lookup_fails ls w call c1 w1 l1 e :
  attempt' ls (call, w) = (RetryContinue, (c1, w1), l1) →
  lookupReplica' ls w1
    (RequestHeader.Key (Request.Header (Call.Args call)))
    (RequestHeader.EndKey (Request.Header (Call.Args call))) = inr e →
  RequestHeader.Replica (Request.Header (Call.Args c1)) = Replica.zero ∧
  ∃ c2 l2,
    Send' ls w call = (c2, w1, [l1; l2]) ∧
    Response.Error (Call.Reply c2) = Some e ∧
    at_exec l2 = None ∧
    Request.Header (Call.Args c2) = Request.Header (Call.Args c1) ∧
    length (executions [l1; l2]) = 1%nat.
Proof.
  intros H1 Hlook.
  assert (∃ ex, at_exec l1 = Some ex) as [ex Hex].
  { destruct (at_exec l1) eqn:Hex; [by eexists|].
    by destruct (attempt_no_exec _ _ _ _ _ _ _ _ _ _ H1 Hex) as [? _]. }
  destruct (attempt_exec_result _ _ _ _ _ _ _ _ H1 Hex)
    as (r1 & _ & _ & _ & _ & _ & Hrep).
  destruct (attempt_request_frame _ _ _ _ _ _ _ H1) as [(_ & _ & Hk & Hek) _].
  split; [done|].
  rewrite Send_unfold, H1.
  assert (resolve' ls w1 (Request.Header (Call.Args c1)) =
          (Request.Header (Call.Args c1), Some e)) as Hr.
  { unfold resolve. rewrite Hrep. cbn [Replica.StoreID Replica.zero].
    rewrite orb_true_r, Hk, Hek, Hlook. done. }
  destruct (attempt' ls (c1, w1)) as [[s2 [c2 w2]] l2] eqn:H2.
  unfold attempt in H2. rewrite Hr in H2. simpl in H2.
  injection H2 as <- <- <- <-.
  eexists _, _. split; [done|]. cbn. repeat split; try done.
  by rewrite Hex.
Qed.

(** The second run after a mismatch: the command is executed on the store
    that hosts the replica found by the lookup, with the error of the first
    run cleared from the reply, and [Send] returns the reply of that second
    store call (with its error set on it when there is one). *)
Theorem Send_retry_executes ls w call c1 w1 l1 raftID repl store err2 r2 w2 :
  attempt' ls (call, w) = (RetryContinue, (c1, w1), l1) →
  lookupReplica' ls w1
    (RequestHeader.Key (Request.Header (Call.Args call)))
    (RequestHeader.EndKey (Request.Header (Call.Args call)))
    = inl (raftID, repl) →
  storeMap ls !! Replica.StoreID repl = Some store →
  ExecuteCmd store (Call.Method call)
    (Request.set_Header
       (narrow (RequestHeader.set_Replica repl
                  (RequestHeader.set_RaftID raftID
                     (Request.Header (Call.Args c1)))))
       (Call.Args c1))
    (Response.set_Error None (Call.Reply c1)) w1 = (err2, r2, w2) →
  ∃ c2 l2,
    Send' ls w call = (c2, w2, [l1; l2]) ∧
    Call.Reply c2 =
      match err2 with
      | Some e => Response.SetGoError e r2
      | None => r2
      end ∧
    ex_store <$> at_exec l2 = Some store ∧
    ex_err <$> at_exec l2 = Some err2 ∧
    RequestHeader.RaftID (Request.Header (Call.Args c2)) = raftID.
Proof.
  intros H1 Hlook Hstore Hexec.
  assert (∃ ex, at_exec l1 = Some ex) as [ex Hex].
  { destruct (at_exec l1) eqn:Hex; [by eexists|].
    by destruct (attempt_no_exec _ _ _ _ _ _ _ _ _ _ H1 Hex) as [? _]. }
  destruct (attempt_exec_result _ _ _ _ _ _ _ _ H1 Hex)
    as (r1 & _ & _ & Hm & _ & _ & Hrep).
  destruct (attempt_request_frame _ _ _ _ _ _ _ H1) as [(_ & _ & Hk & Hek) _].
  rewrite Send_unfold, H1.
  destruct (attempt' ls (c1, w1)) as [[s2 [c2 w2']] l2] eqn:H2.
  assert (resolve' ls w1 (Request.Header (Call.Args c1)) =
          (RequestHeader.set_Replica repl
             (RequestHeader.set_RaftID raftID (Request.Header (Call.Args c1))),
           None)) as Hr.
  { unfold resolve. rewrite Hrep. cbn [Replica.StoreID Replica.zero].
    rewrite orb_true_r, Hk, Hek, Hlook. done. }
  unfold attempt, GetStore in H2. rewrite Hr in H2.
  cbn [RequestHeader.Replica RequestHeader.set_Replica] in H2.
  rewrite Hstore in H2. unfold Call.Method in Hexec.
  rewrite Hm, Hexec in H2.
  exists c2, l2.
  destruct err2 as [e2|]; [destruct (is_RangeKeyMismatchError e2)|];
    simplify_eq/=; repeat split; try done;
    unfold run_deferred, narrow, set_Txn_MaxTimestamp;
    repeat case_match; done.
Qed.

(** [Send] writes only the range identifier and the replica of the request
    header: the method, the body, the key and the end key of the request are
    the caller's in every store call and in the call as returned. *)
Theorem Send_request_frame ls w call :
  let same (a : Request.t) :=
    Request.Method a = Request.Method (Call.Args call) ∧
    Request.Body a = Request.Body (Call.Args call) ∧
    RequestHeader.Key (Request.Header a) =
      RequestHeader.Key (Request.Header (Call.Args call)) ∧
    RequestHeader.EndKey (Request.Header a) =
      RequestHeader.EndKey (Request.Header (Call.Args call)) in
  same (Call.Args (Send' ls w call).1.1) ∧
  Forall (λ ex, same (ex_args ex)) (executions (Send' ls w call).2).
Proof.
  intros same.
  destruct (Send_runs_ind (λ c, same (Call.Args c))
              (λ l, ∀ ex, at_exec l = Some ex → same (ex_args ex))
              ls w call) as [Hfinal Hruns].
  - by unfold same.
  - intros c w0 st c' w0' l (Hm & Hb & Hk & Hek) Ha.
    destruct (attempt_request_frame _ _ _ _ _ _ _ Ha)
      as [(Hm' & Hb' & Hk' & Hek') Hex].
    unfold same. split.
    + repeat split; congruence.
    + intros ex Hx. destruct (Hex ex Hx) as (? & ? & ? & ?).
      repeat split; congruence.
  - split; [done|]. unfold executions.
    apply Forall_forall. intros ex (l & Hl & Hx)%list_elem_of_omap.
    rewrite Forall_forall in Hruns. by apply (Hruns l).
Qed.

(** Every store call of [Send] goes to the store registered under the
    store identifier of the replica in the request it is called with. *)
Theorem Send_executes_on_registered_store ls w call :
  Forall (λ ex,
    storeMap ls !!
      Replica.StoreID (RequestHeader.Replica (Request.Header (ex_args ex)))
    = Some (ex_store ex))
    (executions (Send' ls w call).2).
Proof.
  destruct (Send_runs_ind (λ _, True)
              (λ l, ∀ ex, at_exec l = Some ex →
                 storeMap ls !! Replica.StoreID
                   (RequestHeader.Replica (Request.Header (ex_args ex)))
                 = Some (ex_store ex))
              ls w call) as [_ Hruns]; [done| |].
  - intros c w0 st c' w0' l _ Ha. split; [done|]. intros ex Hex.
    destruct (attempt_exec _ _ _ _ _ _ _ _ _ _ _ Ha Hex)
      as (h & r1 & _ & Hstore & -> & _).
    simpl. by rewrite narrow_Replica.
  - unfold executions.
    apply Forall_forall. intros ex (l & Hl & Hx)%list_elem_of_omap.
    rewrite Forall_forall in Hruns. by apply (Hruns l).
Qed.

(** A call that names both a range and a store is routed by its hint: the
    first run of the closure is the same whatever the stores would answer
    to a lookup and in whatever order the registry is visited. *)
Theorem attempt_hint_ignores_lookup
    (LookupRange2 : World → Store → Key → Key → option Range)
    (map_range2 : World → gmap Z Store → list (Z * Store)) ls w call :
  RequestHeader.RaftID (Request.Header (Call.Args call)) ≠ 0 →
  Replica.StoreID (RequestHeader.Replica (Request.Header (Call.Args call)))
    ≠ 0 →
  attempt' ls (call, w) =
    attempt LookupRange2 ExecuteCmd map_range2 ls (call, w) ∧
  ∀ ex, at_exec (attempt' ls (call, w)).2 = Some ex →
    RequestHeader.RaftID (Request.Header (ex_args ex)) =
      RequestHeader.RaftID (Request.Header (Call.Args call)) ∧
    RequestHeader.Replica (Request.Header (ex_args ex)) =
      RequestHeader.Replica (Request.Header (Call.Args call)).
Proof.
  intros Hraft Hstore.
  assert (∀ L M, resolve L M ls w (Request.Header (Call.Args call)) =
                 (Request.Header (Call.Args call), None)) as Hr.
  { intros L M. unfold resolve.
    by rewrite (proj2 (Z.eqb_neq _ _) Hraft), (proj2 (Z.eqb_neq _ _) Hstore). }
  split.
  - unfold attempt. by rewrite !Hr.
  - intros ex Hex.
    destruct (attempt' ls (call, w)) as [[st [c' w']] l] eqn:Ha.
    destruct (attempt_exec _ _ _ _ _ _ _ _ _ _ _ Ha Hex)
      as (h & r1 & Hres & _ & -> & _).
    rewrite Hr in Hres. injection Hres as <-. simpl.
    rewrite narrow_Replica. split; [|done].
    unfold narrow, set_Txn_MaxTimestamp. by repeat case_match.
Qed.

(** What the store sees of the transaction: for a replica on a node in
    [CertainNodes] the transaction with [MaxTimestamp] set to [Timestamp],
    for any other node the caller's transaction, and none for a call
    without a transaction. *)
Theorem Send_Txn_seen_by_store ls w call :
  Forall (λ ex,
    RequestHeader.Txn (Request.Header (ex_args ex)) =
    (λ txn,
       if Transaction.Contains (Transaction.CertainNodes txn)
            (Replica.NodeID
               (RequestHeader.Replica (Request.Header (ex_args ex))))
       then Transaction.set_MaxTimestamp (Transaction.Timestamp txn) txn
       else txn) <$> RequestHeader.Txn (Request.Header (Call.Args call)))
    (executions (Send' ls w call).2).
Proof.
  destruct (Send_runs_ind
              (λ c, RequestHeader.Txn (Request.Header (Call.Args c)) =
                    RequestHeader.Txn (Request.Header (Call.Args call)))
              (λ l, ∀ ex, at_exec l = Some ex →
                 RequestHeader.Txn (Request.Header (ex_args ex)) =
                 (λ txn,
                    if Transaction.Contains (Transaction.CertainNodes txn)
                         (Replica.NodeID
                            (RequestHeader.Replica
                               (Request.Header (ex_args ex))))
                    then Transaction.set_MaxTimestamp
                           (Transaction.Timestamp txn) txn
                    else txn)
                 <$> RequestHeader.Txn (Request.Header (Call.Args call)))
              ls w call) as [_ Hruns]; [done| |].
  - intros c w0 st c' w0' l Hc Ha.
    destruct (attempt_frame _ _ _ _ _ _ _ _ _ _ Ha) as (_ & _ & _ & _ & Ht).
    split; [congruence|]. intros ex Hex. rewrite <-Hc.
    destruct (RequestHeader.Txn (Request.Header (Call.Args c)))
      as [txn|] eqn:Htxn.
    + by apply (attempt_exec_Txn _ _ _ _ _ _ _ _ _ _ _ _ Ha Hex).
    + destruct (attempt_exec _ _ _ _ _ _ _ _ _ _ _ Ha Hex)
        as (h & r1 & Hres & _ & -> & _).
      apply resolve_Txn in Hres. rewrite Htxn in Hres. simpl.
      unfold narrow. by rewrite Hres.
  - unfold executions.
    apply Forall_forall. intros ex (l & Hl & Hx)%list_elem_of_omap.
    rewrite Forall_forall in Hruns. by apply (Hruns l).
Qed.

(** A call whose identifier was assigned by [resetClientCmdID] reaches the
    stores with that identifier, on a retry as on the first run, and comes
    back with it. *)
Theorem Send_after_resetClientCmdID ls w now rnd c :
  let call := Call.resetClientCmdID now rnd c in
  RequestHeader.CmdID (Request.Header (Call.Args (Send' ls w call).1.1))
    = ClientCmdID.mk now rnd ∧
  Forall (λ ex, RequestHeader.CmdID (Request.Header (ex_args ex))
                = ClientCmdID.mk now rnd)
    (executions (Send' ls w call).2).
Proof.
  intros call.
  destruct (Send_runs_ind
              (λ c, RequestHeader.CmdID (Request.Header (Call.Args c)) =
                    ClientCmdID.mk now rnd)
              (λ l, ∀ ex, at_exec l = Some ex →
                 RequestHeader.CmdID (Request.Header (ex_args ex)) =
                 ClientCmdID.mk now rnd)
              ls w call) as [Hfinal Hruns]; [done| |].
  - intros c0 w0 st c' w0' l Hc Ha.
    destruct (attempt_frame _ _ _ _ _ _ _ _ _ _ Ha) as (_ & _ & _ & Hid & _).
    split; [congruence|]. intros ex Hex.
    rewrite (attempt_exec_CmdID _ _ _ _ _ _ _ _ _ _ _ Ha Hex). done.
  - split; [done|]. unfold executions.
    apply Forall_forall. intros ex (l & Hl & Hx)%list_elem_of_omap.
    rewrite Forall_forall in Hruns. by apply (Hruns l).
Qed.

Lemma lookupReplica_loop_Some w stores start end_ rng :
  lookupReplica_loop LookupRange w stores start end_ = Some rng →
  ∃ p, p ∈ stores ∧ LookupRange w p.2 start end_ = Some rng.
Proof.
  induction stores as [|[id store] rest IH]; [done|]. cbn [lookupReplica_loop].
  destruct (LookupRange w store start end_) as [rng'|] eqn:Hl.
  - intros [= ->]. exists (id, store). split; [by left|done].
  - intros (p & Hin & Hp)%IH. exists p. split; [by right|done].
Qed.

Hypothesis map_range_perm : ∀ w m, map_range w m ≡ₚ map_to_list m.

(** [lookupReplica] succeeds with the range identifier and the replica of a
    range that a registered store returns for the span, and it fails, with
    a mismatch error for the span, only when no registered store returns
    one. *)
Theorem lookupReplica_hosting_store ls w start end_ :
  match lookupReplica LookupRange map_range ls w start end_ with
  | inl (raftID, repl) =>
      ∃ id store rng,
        storeMap ls !! id = Some store ∧
        LookupRange w store start end_ = Some rng ∧
        raftID = Desc_RaftID rng ∧ repl = GetReplica rng
  | inr err =>
      err = RangeKeyMismatchError start end_ None ∧
      ∀ id store, storeMap ls !! id = Some store →
                  LookupRange w store start end_ = None
  end.
Proof.
  unfold lookupReplica.
  destruct (lookupReplica_loop _ _ _ _ _) as [rng|] eqn:Hloop.
  - apply lookupReplica_loop_Some in Hloop as ([id store] & Hin & Hl).
    exists id, store, rng. split; [|done].
    apply elem_of_map_to_list. by rewrite <-(map_range_perm w).
  - split; [done|]. intros id store Hreg.
    destruct (LookupRange w store start end_) as [rng|] eqn:Hl; [|done].
    assert ((id, store) ∈ map_range w (storeMap ls)) as Hin.
    { rewrite (map_range_perm w). by apply elem_of_map_to_list. }
    clear Hreg. revert Hloop.
    induction (map_range w (storeMap ls)) as [|[id' store'] rest IH];
      [by apply elem_of_nil in Hin|].
    cbn [lookupReplica_loop].
    apply elem_of_cons in Hin as [[= <- <-]|Hin]; [by rewrite Hl|].
    destruct (LookupRange w store' start end_); [done|]. by apply IH.
Qed.

(** [VisitStores] calls the visitor on registered stores only, on each of
    them once when no call returns an error; on an error it stops: the
    error returned is that of the last store visited, and every earlier
    call returned none. *)
Theorem VisitStores_run_visits {St E : Type} ls w
    (visitor : Store → St → option E * St) st err st' visited :
  VisitStores_run map_range ls w visitor st = (err, st', visited) →
  (∃ rest, visited ++ rest ≡ₚ (map_to_list (storeMap ls)).*2 ∧
           (err = None → rest = [])) ∧
  (∀ e, err = Some e →
     ∃ pre s st_k,
       visited = pre ++ [s] ∧
       visit_loop visitor pre st = (None, st_k, pre) ∧
       visitor s st_k = (Some e, st')).
Proof.
  unfold VisitStores_run. intros Hrun.
  apply visit_loop_spec in Hrun as ([rest Hpre] & Hall & Herr).
  split; [|done].
  exists rest. split.
  - by rewrite <-Hpre, (map_range_perm w).
  - intros ->. rewrite Hall in Hpre by done.
    rewrite <-(app_nil_r (_.*2)) in Hpre at 1. by apply app_inv_head in Hpre.
Qed.

End RoutingMore.

(** * Properties of the HTTP endpoint *)

Section DBServerFacts.
Context {W : Type}.
Variable DBPrefix : string.
Variable IsPublic : string → bool.
Variable CreateArgsAndReply : string → (ProtoRequest * Response.t) + DBError.
Variable UnmarshalRequest :
  HttpRequest → list N → ProtoRequest → list EncodingType →
  ProtoRequest + DBError.
Variable MarshalResponse :
  HttpRequest → Response.t → list EncodingType → (list N * string) + DBError.
Variable sender_Send : Call.t → W → Call.t * W.

Local Abbreviation ServeHTTP' :=
  (ServeHTTP DBPrefix IsPublic CreateArgsAndReply UnmarshalRequest
     MarshalResponse sender_Send).

(** The endpoint answers 404 Not Found exactly when the path does not start
    with [DBPrefix] or the method after the prefix is not public; it then
    has not read the body and has not called the sender. *)
Theorem ServeHTTP_not_found (r : HttpRequest) (w : W) :
  (response (ServeHTTP' r w) =
     http_Error (StatusText StatusNotFound) StatusNotFound ↔
   HasPrefix (URL_Path r) DBPrefix = false ∨
   IsPublic (TrimPrefix (URL_Path r) DBPrefix) = false) ∧
  (response (ServeHTTP' r w) =
     http_Error (StatusText StatusNotFound) StatusNotFound →
   body_closed (ServeHTTP' r w) = false ∧
   sent (ServeHTTP' r w) = None ∧
   after (ServeHTTP' r w) = w).
Proof.
  unfold ServeHTTP.
  destruct (HasPrefix (URL_Path r) DBPrefix); cbn [negb];
    [|split; [split; [by left|done]|done]].
  destruct (IsPublic (TrimPrefix (URL_Path r) DBPrefix)); cbn [negb];
    [|split; [split; [by right|done]|done]].
  repeat case_match; cbn [response]; (split; [split|]); try done;
    by intros [?|?].
Qed.

(** An EndTransaction request that carries a commit trigger is answered 400
    Bad Request with the error of [verifyRequest], and the sender is not
    called. *)
Theorem ServeHTTP_rejects_commit_trigger
    (r : HttpRequest) (w : W) reqBody args reply req trigger :
  HasPrefix (URL_Path r) DBPrefix = true →
  IsPublic (TrimPrefix (URL_Path r) DBPrefix) = true →
  ReadAll_Body r = (reqBody, None) →
  CreateArgsAndReply (TrimPrefix (URL_Path r) DBPrefix) = inl (args, reply) →
  UnmarshalRequest r reqBody args allowedEncodings =
    inl (EndTransactionRequest req (Some trigger)) →
  ServeHTTP' r w =
    {| response :=
         http_Error (ErrorText (Errorf_contains_commit_trigger trigger))
           StatusBadRequest;
       body_closed := true; sent := None; after := w |}.
Proof.
  intros Hp Hpub Hbody Hargs Hun. unfold ServeHTTP.
  by rewrite Hp, Hpub, Hbody, Hargs, Hun.
Qed.

(** The sender is called only for a request that passed every check: a
    public method under the prefix, a body read without error, arguments
    created, unmarshalled and accepted by [verifyRequest]; the response is
    then the marshalled reply, or 500 when marshalling fails, whatever
    error the reply carries.  When the sender is not called the state
    behind it is untouched and the response is an error with status 404,
    400 or 500.  The body is closed exactly when the request got past the
    prefix and method checks. *)
Theorem ServeHTTP_sends_after_checks (r : HttpRequest) (w : W) :
  match sent (ServeHTTP' r w) with
  | Some call =>
      ∃ reqBody args0 reply args,
        HasPrefix (URL_Path r) DBPrefix = true ∧
        IsPublic (TrimPrefix (URL_Path r) DBPrefix) = true ∧
        ReadAll_Body r = (reqBody, None) ∧
        CreateArgsAndReply (TrimPrefix (URL_Path r) DBPrefix)
          = inl (args0, reply) ∧
        UnmarshalRequest r reqBody args0 allowedEncodings = inl args ∧
        verifyRequest args = None ∧
        call = Call.mk (Request_of args) reply ∧
        after (ServeHTTP' r w) = (sender_Send call w).2 ∧
        response (ServeHTTP' r w) =
          match MarshalResponse r (Call.Reply (sender_Send call w).1)
                  allowedEncodings with
          | inl (body, contentType) => http_Write contentType body
          | inr e => http_Error (ErrorText e) StatusInternalServerError
          end
  | None =>
      after (ServeHTTP' r w) = w ∧
      ∃ text code,
        response (ServeHTTP' r w) = http_Error text code ∧
        (code = StatusNotFound ∨ code = StatusBadRequest ∨
         code = StatusInternalServerError)
  end ∧
  (body_closed (ServeHTTP' r w) = true ↔
   HasPrefix (URL_Path r) DBPrefix = true ∧
   IsPublic (TrimPrefix (URL_Path r) DBPrefix) = true).
Proof.
  unfold ServeHTTP.
  destruct (HasPrefix (URL_Path r) DBPrefix) eqn:Hp; cbn [negb];
    [|split; [split; [done|]; eexists _, _; split; [done|by left]
             |split; [done|by intros []]]].
  destruct (IsPublic (TrimPrefix (URL_Path r) DBPrefix)) eqn:Hpub; cbn [negb];
    [|split; [split; [done|]; eexists _, _; split; [done|by left]
             |split; [done|by intros []]]].
  destruct (ReadAll_Body r) as [reqBody [e|]] eqn:Hbody;
    [split; [split; [done|]; eexists _, _; split; [done|by right; right]
            |done]|].
  destruct (CreateArgsAndReply _) as [[args0 reply]|e] eqn:Hargs;
    [|split; [split; [done|]; eexists _, _; split; [done|by right; left]
             |done]].
  destruct (UnmarshalRequest _ _ _ _) as [args|e] eqn:Hun;
    [|split; [split; [done|]; eexists _, _; split; [done|by right; left]
             |done]].
  destruct (verifyRequest args) as [e|] eqn:Hv;
    [split; [split; [done|]; eexists _, _; split; [done|by right; left]
            |done]|].
  destruct (sender_Send _ w) as [call' w'] eqn:Hsend.
  destruct (MarshalResponse _ _ _) as [[body ct]|e] eqn:Hm;
    (split; [|done]); cbn [sent after response];
    exists reqBody, args0, reply, args; rewrite Hsend; cbn [fst snd];
    rewrite Hm; done.
Qed.

End DBServerFacts.

(** * Properties of the expectations of the addressing test *)

Section ExpectationFacts.
Implicit Types (ms : list metaRecord) (n : Key) (d : RangeDescriptor.t).

Lemma addOrRemoveNew_key_nil (d : RangeDescriptor.t) (add : bool) (n : Key) :
  addOrRemoveNew_key d add [] n =
    if add then [{| key := n; desc := d |}] else [].
Proof. by destruct add. Qed.

Lemma addOrRemoveNew_key_cons (d : RangeDescriptor.t) (add : bool)
    (m : metaRecord) (rest : list metaRecord) (n : Key) :
  addOrRemoveNew_key d add (m :: rest) n =
    if decide (key m = n)
    then (if add then {| key := key m; desc := d |} :: rest else rest)
    else m :: addOrRemoveNew_key d add rest n.
Proof.
  unfold addOrRemoveNew_key. cbn [find_and_set].
  destruct (decide (key m = n)) as [Heq|Hne].
  - by destruct add.
  - destruct (find_and_set n d rest) as [[i|] rest']; cbn [fmap option_fmap option_map];
      by destruct add.
Qed.

Lemma addOrRemoveNew_key_keys (d : RangeDescriptor.t) (add : bool)
    (ms : list metaRecord) (n k : Key) :
  k ∈ key <$> addOrRemoveNew_key d add ms n → k ∈ key <$> ms ∨ k = n.
Proof.
  induction ms as [|m rest IH].
  - rewrite addOrRemoveNew_key_nil. destruct add; cbn.
    + rewrite list_elem_of_singleton. by right.
    + by left.
  - rewrite addOrRemoveNew_key_cons.
    destruct (decide (key m = n)) as [Heq|Hne].
    + destruct add; rewrite !fmap_cons; cbn [key].
      * by left.
      * intros Hin. left. by right.
    + rewrite !fmap_cons, !elem_of_cons. intros [->|Hin]; [by left; left|].
      destruct (IH Hin) as [?|?]; [left; by right|by right].
Qed.

Lemma addOrRemoveNew_key_NoDup (d : RangeDescriptor.t) (add : bool)
    (ms : list metaRecord) (n : Key) :
  NoDup (key <$> ms) → NoDup (key <$> addOrRemoveNew_key d add ms n).
Proof.
  induction ms as [|m rest IH]; intros Hnd.
  - rewrite addOrRemoveNew_key_nil. destruct add; cbn; [|constructor].
    apply NoDup_singleton.
  - rewrite addOrRemoveNew_key_cons. rewrite fmap_cons in Hnd.
    apply NoDup_cons in Hnd as [Hnin Hnd].
    destruct (decide (key m = n)) as [Heq|Hne].
    + destruct add; [|done]. rewrite fmap_cons. cbn [key].
      by apply NoDup_cons.
    + rewrite fmap_cons. apply NoDup_cons. split; [|by apply IH].
      intros Hin. by destruct (addOrRemoveNew_key_keys _ _ _ _ _ Hin).
Qed.

Lemma metas_map_add (d : RangeDescriptor.t) (ms : list metaRecord) (n : Key) :
  metas_map (addOrRemoveNew_key d true ms n) = <[n := d]> (metas_map ms).
Proof.
  unfold metas_map. induction ms as [|m rest IH].
  - by rewrite addOrRemoveNew_key_nil.
  - rewrite addOrRemoveNew_key_cons.
    destruct (decide (key m = n)) as [Heq|Hne].
    + rewrite !fmap_cons. cbn [list_to_map key desc fst snd foldr].
      rewrite <-Heq. by rewrite insert_insert_eq.
    + rewrite !fmap_cons. cbn [list_to_map fst snd foldr].
      change (foldr _ ∅ ?l) with (list_to_map (M := Index) l).
      rewrite IH. by apply insert_insert_ne.
Qed.

Lemma metas_map_remove (d : RangeDescriptor.t) (ms : list metaRecord) (n : Key) :
  NoDup (key <$> ms) →
  metas_map (addOrRemoveNew_key d false ms n) = delete n (metas_map ms).
Proof.
  unfold metas_map. induction ms as [|m rest IH]; intros Hnd.
  - rewrite addOrRemoveNew_key_nil. cbn. by rewrite delete_empty.
  - rewrite addOrRemoveNew_key_cons. rewrite fmap_cons in Hnd.
    apply NoDup_cons in Hnd as [Hnin Hnd].
    destruct (decide (key m = n)) as [Heq|Hne].
    + rewrite fmap_cons. cbn [list_to_map fst snd foldr].
      change (foldr _ ∅ ?l) with (list_to_map (M := Index) l).
      rewrite <-Heq, delete_insert_eq. symmetry. apply delete_id.
      apply not_elem_of_list_to_map_1.
      by rewrite <-list_fmap_compose.
    + rewrite !fmap_cons. cbn [list_to_map fst snd foldr].
      change (foldr _ ∅ ?l) with (list_to_map (M := Index) l).
      rewrite IH by done. by rewrite delete_insert_ne.
Qed.

End ExpectationFacts.

Lemma addOrRemoveNew_NoDup (keys : list Key) (d : RangeDescriptor.t)
    (add : bool) (expMetas : list metaRecord) :
  NoDup (key <$> expMetas) →
  NoDup (key <$> addOrRemoveNew keys d add expMetas).
Proof.
  unfold addOrRemoveNew. revert expMetas.
  induction keys as [|n keys IH]; intros expMetas Hnd; [done|].
  cbn [foldl]. by apply IH, addOrRemoveNew_key_NoDup.
Qed.

Lemma metas_map_addOrRemoveNew (keys : list Key) (d : RangeDescriptor.t)
    (add : bool) (expMetas : list metaRecord) :
  NoDup (key <$> expMetas) →
  metas_map (addOrRemoveNew keys d add expMetas) =
    foldl (λ (m : Index) n, if add then <[n := d]> m else delete n m)
      (metas_map expMetas) keys.
Proof.
  unfold addOrRemoveNew. revert expMetas.
  induction keys as [|n keys IH]; intros expMetas Hnd; [done|].
  cbn [foldl]. rewrite IH by by apply addOrRemoveNew_key_NoDup.
  f_equal. destruct add; [apply metas_map_add|by apply metas_map_remove].
Qed.

(** [addOrRemoveNew] on an expectation slice with distinct keys keeps the
    keys distinct and acts on the records as a map: with [add] every key of
    [keys] is bound to the descriptor, without it every key of [keys] is
    removed, and all other records are kept. *)
Theorem addOrRemoveNew_as_map (keys : list Key) (d : RangeDescriptor.t)
    (add : bool) (expMetas : list metaRecord) :
  NoDup (key <$> expMetas) →
  NoDup (key <$> addOrRemoveNew keys d add expMetas) ∧
  metas_map (addOrRemoveNew keys d add expMetas) =
    foldl (λ (m : Index) n, if add then <[n := d]> m else delete n m)
      (metas_map expMetas) keys.
Proof.
  intros Hnd. split.
  - by apply addOrRemoveNew_NoDup.
  - by apply metas_map_addOrRemoveNew.
Qed.

(** Two slices with the same records and distinct keys that are both sorted
    by [Less], as [sort.Sort] leaves them, are equal: the order of the
    expected and of the scanned records does not depend on the sort. *)
Theorem metaSlice_sorted_unique (l1 l2 : list metaRecord) :
  NoDup (key <$> l1) →
  l1 ≡ₚ l2 →
  Sorted (λ a b, ¬ Less b a) l1 →
  Sorted (λ a b, ¬ Less b a) l2 →
  l1 = l2.
Proof.
  intros Hnd Hperm H1 H2.
  assert (∀ a b : metaRecord, ¬ Less b a ↔ key_le (key a) (key b)) as Hle.
  { intros a b. unfold Less. split.
    - intros Hn. by destruct (total key_le (key a) (key b)) as [?|[Heq|?]];
        [|left|].
    - intros Hab Hba. by apply (key_lt_not_le _ _ Hba). }
  assert (Transitive (λ a b : metaRecord, ¬ Less b a)) as Htr.
  { intros a b c. rewrite !Hle. apply transitivity. }
  apply Sorted_StronglySorted in H1; [|done].
  apply Sorted_StronglySorted in H2; [|done].
  eapply StronglySorted_unique_strong; [|done..].
  intros x1 x2 Hx1 Hx2. rewrite !Hle. intros Ha Hb.
  assert (key x1 = key x2) as Hk by by apply (anti_symm key_le).
  rewrite <-Hperm in Hx2.
  apply list_elem_of_lookup in Hx1 as [i Hi].
  apply list_elem_of_lookup in Hx2 as [j Hj].
  assert (i = j) as ->.
  { eapply NoDup_lookup; [exact Hnd| |]; rewrite list_lookup_fmap.
    - by rewrite Hi.
    - rewrite Hj. cbn. by rewrite Hk. }
  congruence.
Qed.

(** * The further statements at sample inputs *)

(** A second store added to the registry that holds store 1. *)
Lemma AddStore_fresh_witness :
  storeMap Sample.registry1 !! 2 = None ∧
  (AddStore Sample.registry1 Fixture.store2).2 = None ∧
  GetStore (AddStore Sample.registry1 Fixture.store2).1 2 = inl Fixture.store2 ∧
  HasStore (AddStore Sample.registry1 Fixture.store2).1 2 = true ∧
  GetStoreCount (AddStore Sample.registry1 Fixture.store2).1 = 2%nat ∧
  (∀ id, id ≠ 2 →
     GetStore (AddStore Sample.registry1 Fixture.store2).1 id =
       GetStore Sample.registry1 id ∧
     HasStore (AddStore Sample.registry1 Fixture.store2).1 id =
       HasStore Sample.registry1 id).
Proof.
  split; [by vm_compute|].
  apply (AddStore_fresh_registers Sample.registry1 Fixture.store2).
  by vm_compute.
Defined.

(** A call routed by hint to a store that fails with an error that is not a
    mismatch: one run, the error on the reply. *)
Lemma Send_no_retry_witness :
  let call := Sample.call_of Sample.header_hint in
  let r := Send Sample.lookup_always Fixture.exec_fail Sample.map_order
             Sample.registry1 () call in
  let l1 := (attempt Sample.lookup_always Fixture.exec_fail Sample.map_order
               Sample.registry1 (call, ())).2 in
  let ex := {| ex_store := Sample.store1;
               ex_args := Request.set_Header (narrow Sample.header_hint)
                            (Call.Args call);
               ex_err := Some (OtherError 7) |} in
  head r.2 = Some l1 ∧ at_exec l1 = Some ex ∧
  r.2 = [l1] ∧
  ∃ reply1,
    Fixture.exec_fail Sample.store1 "Get" (ex_args ex)
      (Response.set_Error None (Call.Reply call)) ()
      = (Some (OtherError 7), reply1, r.1.2) ∧
    Call.Reply r.1.1 = Response.SetGoError (OtherError 7) reply1.
Proof.
  intros call r l1 ex. split; [by vm_compute|]. split; [by vm_compute|].
  apply (Send_no_retry_without_mismatch
           Sample.lookup_always Fixture.exec_fail Sample.map_order
           Sample.registry1 () call l1 ex).
  - by vm_compute.
  - by vm_compute.
  - intros e [= <-]. reflexivity.
Defined.

(** A call routed by a stale hint to a store that answers with a mismatch,
    when no store hosts the span: the second run fails in the lookup. *)
Lemma Send_retry_lookup_fails_witness :
  let call := Sample.call_of Sample.header_hint in
  let a := attempt Sample.lookup_never Sample.exec_mismatch Sample.map_order
             Sample.registry1 (call, ()) in
  a.1.1 = RetryContinue ∧
  RequestHeader.Replica (Request.Header (Call.Args a.1.2.1)) = Replica.zero ∧
  ∃ c2 l2,
    Send Sample.lookup_never Sample.exec_mismatch Sample.map_order
      Sample.registry1 () call = (c2, a.1.2.2, [a.2; l2]) ∧
    Response.Error (Call.Reply c2) =
      Some (RangeKeyMismatchError [97%N] [] None) ∧
    at_exec l2 = None ∧
    Request.Header (Call.Args c2) = Request.Header (Call.Args a.1.2.1) ∧
    length (executions [a.2; l2]) = 1%nat.
Proof.
  intros call a. split; [by vm_compute|].
  apply (Send_retry_lookup_fails
           Sample.lookup_never Sample.exec_mismatch Sample.map_order
           Sample.registry1 () call a.1.2.1 a.1.2.2 a.2
           (RangeKeyMismatchError [97%N] [] None));
    by vm_compute.
Defined.

(** A call routed by a stale hint to a store that answers the first command
    with a mismatch and the second with success: the reply is that of the
    second command. *)
Lemma Send_retry_executes_witness :
  let call := Sample.call_of Sample.header_hint in
  let a := attempt Fixture.lookup_store1 Fixture.exec_stale_once
             Fixture.map_order Sample.registry1 (call, O) in
  a.1.1 = RetryContinue ∧
  ∃ c2 l2,
    Send Fixture.lookup_store1 Fixture.exec_stale_once Fixture.map_order
      Sample.registry1 O call = (c2, 2%nat, [a.2; l2]) ∧
    Call.Reply c2 = Response.mk None [42%N] ∧
    ex_store <$> at_exec l2 = Some Sample.store1 ∧
    ex_err <$> at_exec l2 = Some None ∧
    RequestHeader.RaftID (Request.Header (Call.Args c2)) = 1.
Proof.
  intros call a. split; [by vm_compute|].
  apply (Send_retry_executes
           Fixture.lookup_store1 Fixture.exec_stale_once Fixture.map_order
           Sample.registry1 O call a.1.2.1 a.1.2.2 a.2
           1 (Replica.mk 1 1) Sample.store1 None (Response.mk None [42%N])
           2%nat);
    by vm_compute.
Defined.

(** A call with range 1 and store 1 in its header, with stores that host
    every span or none, visited in either order. *)
Lemma attempt_hint_witness :
  let call := Sample.call_of Sample.header_hint in
  let a := attempt Sample.lookup_always Sample.exec_mismatch Sample.map_order
             Sample.registry1 (call, ()) in
  (RequestHeader.RaftID Sample.header_hint ≠ 0 ∧
   Replica.StoreID (RequestHeader.Replica Sample.header_hint) ≠ 0) ∧
  a = attempt Sample.lookup_never Sample.exec_mismatch Fixture.map_reverse
        Sample.registry1 (call, ()) ∧
  ∀ ex, at_exec a.2 = Some ex →
    RequestHeader.RaftID (Request.Header (ex_args ex)) = 1 ∧
    RequestHeader.Replica (Request.Header (ex_args ex)) = Replica.mk 1 1.
Proof.
  intros call a. split; [by split|].
  apply (attempt_hint_ignores_lookup
           Sample.lookup_always Sample.exec_mismatch Sample.map_order
           Sample.lookup_never Fixture.map_reverse
           Sample.registry1 () call); by vm_compute.
Defined.

(** The lookup of the span of "a" on the registry that holds store 1, which
    hosts every span. *)
Lemma lookupReplica_hosting_witness :
  match lookupReplica Sample.lookup_always Sample.map_order
          Sample.registry1 () [97%N] [] with
  | inl (raftID, repl) =>
      ∃ id store rng,
        storeMap Sample.registry1 !! id = Some store ∧
        Sample.lookup_always () store [97%N] [] = Some rng ∧
        raftID = Desc_RaftID rng ∧ repl = GetReplica rng
  | inr err =>
      err = RangeKeyMismatchError [97%N] [] None ∧
      ∀ id store, storeMap Sample.registry1 !! id = Some store →
                  Sample.lookup_always () store [97%N] [] = None
  end.
Proof.
  apply (lookupReplica_hosting_store
           Sample.lookup_always Sample.map_order
           (λ w m, reflexivity (map_to_list m))
           Sample.registry1 () [97%N] []).
Defined.

(** The counting visitor on the registry that holds store 1, where it
    fails. *)
Lemma VisitStores_run_witness :
  VisitStores_run Sample.map_order Sample.registry1 () Fixture.visitor O
    = (Some 9, 1%nat, [Sample.store1]) ∧
  (∃ rest, [Sample.store1] ++ rest ≡ₚ
             (map_to_list (storeMap Sample.registry1)).*2 ∧
           (Some 9 = None → rest = [])) ∧
  (∀ e, Some 9 = Some e →
     ∃ pre s st_k,
       [Sample.store1] = pre ++ [s] ∧
       visit_loop Fixture.visitor pre O = (None, st_k, pre) ∧
       Fixture.visitor s st_k = (Some e, 1%nat)).
Proof.
  split; [by vm_compute|].
  apply (VisitStores_run_visits
           Sample.map_order (λ w m, reflexivity (map_to_list m))
           Sample.registry1 () Fixture.visitor O (Some 9) 1%nat
           [Sample.store1]).
  by vm_compute.
Defined.

(** An EndTransaction request decoded with a commit trigger, in front of the
    local sender: 400, and the sender is not called. *)
Lemma ServeHTTP_commit_trigger_witness :
  Fixture.UnmarshalRequest Fixture.end_transaction [1%N]
    (EndTransactionRequest (Request.mk "EndTransaction" Sample.header_hint [])
       None) allowedEncodings
  = inl (EndTransactionRequest
           (Request.mk "EndTransaction" Sample.header_hint [])
           (Some {| trigger_payload := [1%N] |})) ∧
  ServeHTTP Fixture.DBPrefix Fixture.IsPublic Fixture.CreateArgsAndReply
    Fixture.UnmarshalRequest Fixture.MarshalResponse Fixture.sender_Send
    Fixture.end_transaction () =
    {| response :=
         http_Error
           (ErrorText (Errorf_contains_commit_trigger
                         {| trigger_payload := [1%N] |}))
           StatusBadRequest;
       body_closed := true; sent := None; after := () |}.
Proof.
  split; [reflexivity|].
  apply (ServeHTTP_rejects_commit_trigger
           Fixture.DBPrefix Fixture.IsPublic Fixture.CreateArgsAndReply
           Fixture.UnmarshalRequest Fixture.MarshalResponse Fixture.sender_Send
           Fixture.end_transaction () [1%N]
           (EndTransactionRequest
              (Request.mk "EndTransaction" Sample.header_hint []) None)
           (Response.mk None [])
           (Request.mk "EndTransaction" Sample.header_hint [])
           {| trigger_payload := [1%N] |}); by vm_compute.
Defined.

(** The records keyed "a" and "m", with the keys "m" and "z" added for a new
    descriptor. *)
Lemma addOrRemoveNew_witness :
  let r := addOrRemoveNew [Sample.key_m; Sample.key_z] Sample.whole true
             [Fixture.rec_a; Fixture.rec_m] in
  NoDup (key <$> [Fixture.rec_a; Fixture.rec_m]) ∧
  NoDup (key <$> r) ∧
  metas_map r =
    <[Sample.key_z := Sample.whole]>
      (<[Sample.key_m := Sample.whole]>
         (metas_map [Fixture.rec_a; Fixture.rec_m])).
Proof.
  intros r.
  assert (NoDup (key <$> [Fixture.rec_a; Fixture.rec_m])) as Hnd.
  { apply (bool_decide_unpack _). by vm_compute. }
  split; [exact Hnd|].
  exact (addOrRemoveNew_as_map [Sample.key_m; Sample.key_z] Sample.whole true
           [Fixture.rec_a; Fixture.rec_m] Hnd).
Defined.

(** The records keyed "a" and "m" in ascending order. *)
Lemma metaSlice_sorted_witness :
  let l := [Fixture.rec_a; Fixture.rec_m] in
  (NoDup (key <$> l) ∧ Sorted (λ a b, ¬ Less b a) l) ∧
  l = reverse [Fixture.rec_m; Fixture.rec_a].
Proof.
  intros l.
  assert (NoDup (key <$> l)) as Hnd.
  { apply (bool_decide_unpack _). by vm_compute. }
  assert (Sorted (λ a b, ¬ Less b a) l) as Hs.
  { repeat constructor. apply (bool_decide_unpack _). by vm_compute. }
  split; [by split|].
  exact (metaSlice_sorted_unique l (reverse [Fixture.rec_m; Fixture.rec_a])
           Hnd (reflexivity l) Hs Hs).
Defined.

(** * Calls that reach no store, and the expectations of a test step *)

Section RoutingUntouched.
Context {World : Type}.
Variable LookupRange : World → Store → Key → Key → option Range.
Variable ExecuteCmd :
  Store → string → Request.t → Response.t → World →
  option GoError * Response.t * World.
Variable map_range : World → gmap Z Store → list (Z * Store).

Local Abbreviation attempt' := (attempt LookupRange ExecuteCmd map_range).
Local Abbreviation Send' := (Send LookupRange ExecuteCmd map_range).

(** The stores change only through the commands they execute: a [Send]
    that called no store ran the closure once, leaves the stores as they
    were and returns an error on the reply. *)
Theorem Send_without_store_call ls w call :
  executions (Send' ls w call).2 = [] →
  (Send' ls w call).1.2 = w ∧
  length (Send' ls w call).2 = 1%nat ∧
  ∃ e, Response.Error (Call.Reply (Send' ls w call).1.1) = Some e.
Proof.
  rewrite Send_unfold.
  destruct (attempt' ls (call, w)) as [[s1 [c1 w1]] l1] eqn:H1.
  destruct (at_exec l1) as [ex|] eqn:Hex.
  - intros Hnone. exfalso.
    assert (∀ rest, executions (l1 :: rest) ≠ []) as Hne.
    { intros rest. unfold executions. cbn [omap list_omap]. by rewrite Hex. }
    destruct s1; [|destruct (attempt' ls (c1, w1)) as [[s2 [c2 w2]] l2]];
      by apply Hne in Hnone.
  - destruct (attempt_no_exec _ _ _ _ _ _ _ _ _ _ H1 Hex)
      as (-> & -> & h & _ & Herr).
    intros _. cbn [fst snd]. split; [done|]. split; [done|].
    destruct Herr as [(e & _ & He)|(_ & _ & He)]; by eexists.
Qed.

End RoutingUntouched.

(** A call routed by hint to the unregistered store 5 calls no store. *)
Lemma Send_without_store_call_witness :
  let r := Send Sample.lookup_always Sample.exec_mismatch Sample.map_order
             Sample.registry1 () (Sample.call_of Sample.header_store5) in
  executions r.2 = [] ∧
  r.1.2 = () ∧ length r.2 = 1%nat ∧
  ∃ e, Response.Error (Call.Reply r.1.1) = Some e.
Proof.
  intros r. split; [by vm_compute|].
  apply (Send_without_store_call
           Sample.lookup_always Sample.exec_mismatch Sample.map_order
           Sample.registry1 () (Sample.call_of Sample.header_store5)).
  by vm_compute.
Defined.

Lemma lookup_foldl_add_remove (d : RangeDescriptor.t) (add : bool)
    (keys : list Key) (m : Index) (k : Key) :
  foldl (λ (m : Index) n, if add then <[n := d]> m else delete n m) m keys
    !! k =
  if decide (k ∈ keys) then (if add then Some d else None) else m !! k.
Proof.
  revert m. induction keys as [|n keys IH]; intros m; cbn [foldl].
  { by rewrite decide_False by apply not_elem_of_nil. }
  rewrite IH. destruct (decide (k ∈ keys)) as [Hin|Hnin].
  - by rewrite decide_True by (by right).
  - destruct (decide (k = n)) as [->|Hne].
    + rewrite decide_True by (by left).
      destruct add; [by rewrite lookup_insert_eq|by rewrite lookup_delete_eq].
    + rewrite decide_False by (by intros [?|?]%elem_of_cons).
      destruct add; [by rewrite lookup_insert_ne|by rewrite lookup_delete_ne].
Qed.

(** The expectations after one step of the addressing test, which applies
    [addOrRemoveNew] for the left descriptor (adding on a split, removing on
    a merge) and then for the right one: a key of the right list is bound
    to the right descriptor, also when the left list names it; a key of the
    left list only is bound to the left descriptor on a split and unbound
    on a merge; every other record is as before. *)
Theorem addOrRemoveNew_step_lookup (leftExpNew rightExpNew : list Key)
    (left right : RangeDescriptor.t) (split : bool)
    (expMetas : list metaRecord) (k : Key) :
  NoDup (key <$> expMetas) →
  metas_map (addOrRemoveNew rightExpNew right true
               (addOrRemoveNew leftExpNew left split expMetas)) !! k =
  if decide (k ∈ rightExpNew) then Some right
  else if decide (k ∈ leftExpNew)
       then (if split then Some left else None)
       else metas_map expMetas !! k.
Proof.
  intros Hnd.
  pose proof (addOrRemoveNew_NoDup leftExpNew left split expMetas Hnd)
    as Hnd1.
  pose proof (metas_map_addOrRemoveNew leftExpNew left split expMetas Hnd)
    as Hmap1.
  pose proof (metas_map_addOrRemoveNew rightExpNew right true _ Hnd1)
    as Hmap2.
  rewrite Hmap2.
  etrans; [exact (lookup_foldl_add_remove right true rightExpNew _ k)|].
  destruct (decide (k ∈ rightExpNew)); [done|].
  rewrite Hmap1.
  exact (lookup_foldl_add_remove left split leftExpNew _ k).
Qed.

(** The merge step of the test on the records of "a" and "m": the left
    list removes "a", the right list rebinds "m". *)
Lemma addOrRemoveNew_step_witness :
  NoDup (key <$> [Fixture.rec_a; Fixture.rec_m]) ∧
  ∀ k,
    metas_map (addOrRemoveNew [Sample.key_m] Sample.whole true
                 (addOrRemoveNew [Sample.key_a] Sample.left_a false
                    [Fixture.rec_a; Fixture.rec_m])) !! k =
    if decide (k ∈ [Sample.key_m]) then Some Sample.whole
    else if decide (k ∈ [Sample.key_a]) then None
         else metas_map [Fixture.rec_a; Fixture.rec_m] !! k.
Proof.
  assert (NoDup (key <$> [Fixture.rec_a; Fixture.rec_m])) as Hnd.
  { apply (bool_decide_unpack _). by vm_compute. }
  split; [exact Hnd|]. intros k.
  exact (addOrRemoveNew_step_lookup [Sample.key_a] [Sample.key_m]
           Sample.left_a Sample.whole false
           [Fixture.rec_a; Fixture.rec_m] k Hnd).
Defined.

(** * Properties of the addressing test *)

(** The scanned records are those of the index. *)
Lemma scan_metas_lookup (idx : Index) (k : Key) (d : RangeDescriptor.t) :
  {| key := k; desc := d |} ∈ scan_metas idx ↔ idx !! k = Some d.
Proof.
  unfold scan_metas. rewrite merge_sort_Permutation, list_elem_of_fmap.
  split.
  - intros ([k' d'] & [= -> ->] & Hin). by apply elem_of_map_to_list.
  - intros Hk. exists (k, d). split; [done|]. by apply elem_of_map_to_list.
Qed.

(** A batch that changes the record under a key puts that record. *)
Lemma Run_lookup_changed (calls : list MetaOp) (idx : Index) (k : Key)
    (d : RangeDescriptor.t) :
  Run calls idx !! k = Some d → idx !! k ≠ Some d → PutMeta k d ∈ calls.
Proof.
  revert idx. induction calls as [|op calls IH]; intros idx; [done|].
  change (Run (op :: calls) idx) with (Run calls (run_op idx op)).
  intros Hafter Hbefore.
  destruct (decide (run_op idx op !! k = Some d)) as [Hop|Hop];
    [|right; by apply (IH (run_op idx op))].
  apply elem_of_cons. left. destruct op as [k' d'|k']; cbn [run_op] in Hop.
  - destruct (decide (k' = k)) as [->|Hne].
    + rewrite lookup_insert_eq in Hop. congruence.
    + by rewrite lookup_insert_ne in Hop.
  - destruct (decide (k' = k)) as [->|Hne].
    + by rewrite lookup_delete_eq in Hop.
    + by rewrite lookup_delete_ne in Hop.
Qed.

Section AddressingTestFacts.
Variables SplitRangeAddressing MergeRangeAddressing :
  RangeDescriptor.t → RangeDescriptor.t →
  list MetaOp * option AddressingError.

Local Abbreviation run_cases' :=
  (run_cases SplitRangeAddressing MergeRangeAddressing).

(** One row of the test that neither ends the test nor reports an
    error. *)
Lemma run_cases_row (i : Z) (test : testCase) (rest : list testCase)
    (idx : Index) (expMetas : list metaRecord) (results : list bool) :
  let left := RangeDescriptor.mk (i * 2) (leftStart test) (leftEnd test) in
  let right :=
    RangeDescriptor.mk (i * 2 + 1) (rightStart test) (rightEnd test) in
  let expMetas' :=
    sort_metas
      (addOrRemoveNew (rightExpNew test) right true
         (addOrRemoveNew (leftExpNew test) left (split test) expMetas)) in
  run_cases' i (test :: rest) idx expMetas = Some (true :: results) →
  ∃ calls,
    (if split test then SplitRangeAddressing left right
     else MergeRangeAddressing left right) = (calls, None) ∧
    scan_metas (Run calls idx) = expMetas' ∧
    run_cases' (i + 1) rest (Run calls idx) expMetas' = Some results.
Proof.
  intros left right expMetas'. cbn [run_cases].
  fold left right.
  destruct (if split test then SplitRangeAddressing left right
            else MergeRangeAddressing left right) as [calls [err|]];
    [done|].
  fold expMetas'.
  destruct (run_cases' (i + 1) rest (Run calls idx) expMetas')
    as [results'|] eqn:Hrest; [|done].
  cbn [fmap option_fmap option_map]. intros [= Hb ->].
  exists calls. split; [done|]. split; [|done].
  apply bool_decide_eq_true in Hb. by symmetry.
Qed.

End AddressingTestFacts.


(** Whatever [SplitRangeAddressing] and [MergeRangeAddressing] are, when
    they pass the addressing test the batch of its first split, of the
    full-keyspace range at "a", puts the left half under the level-1 key of
    [KeyMax], and the batch of the split of the range from [KeyMin] to "a"
    at the level-2 key of "m" puts the left half under the level-1 key of
    "m". *)
Theorem TestUpdateRangeAddressing_forces_level1_records
    (SplitRangeAddressing MergeRangeAddressing :
       RangeDescriptor.t → RangeDescriptor.t →
       list MetaOp * option AddressingError) (idx : Index) :
  TestUpdateRangeAddressing
    Sample.KeyMeta1Prefix Sample.KeyMeta2Prefix Sample.KeyMax
    SplitRangeAddressing MergeRangeAddressing idx
  = Some (replicate 13 true) →
  (∃ calls,
     SplitRangeAddressing Sample.left_a Sample.right_a = (calls, None) ∧
     PutMeta (meta1Key Sample.KeyMeta1Prefix Sample.KeyMax) Sample.left_a
       ∈ calls) ∧
  (∃ calls,
     SplitRangeAddressing Sample.left_m Sample.right_m = (calls, None) ∧
     PutMeta (meta1Key Sample.KeyMeta1Prefix Sample.key_m) Sample.left_m
       ∈ calls).
Proof.
  unfold TestUpdateRangeAddressing, testCases. cbn [replicate].
  intros Htest.
  apply run_cases_row in Htest as (calls0 & _ & Hscan0 & Htest).
  apply run_cases_row in Htest as (calls1 & Hcalls1 & Hscan1 & Htest).
  apply run_cases_row in Htest as (calls2 & _ & Hscan2 & Htest).
  apply run_cases_row in Htest as (calls3 & _ & Hscan3 & Htest).
  apply run_cases_row in Htest as (calls4 & Hcalls4 & Hscan4 & _).
  cbn [split leftStart leftEnd rightStart rightEnd leftExpNew rightExpNew]
    in *.
  split.
  - exists calls1. split; [exact Hcalls1|].
    apply (Run_lookup_changed calls1 (Run calls0 idx)).
    + apply scan_metas_lookup. rewrite Hscan1.
      apply (bool_decide_unpack _). by vm_compute.
    + assert (Run calls0 idx !!
                meta1Key Sample.KeyMeta1Prefix Sample.KeyMax
              = Some (RangeDescriptor.mk 1 KeyMin Sample.KeyMax)) as ->.
      { apply scan_metas_lookup. rewrite Hscan0.
        apply (bool_decide_unpack _). by vm_compute. }
      done.
  - exists calls4. split; [exact Hcalls4|].
    apply (Run_lookup_changed calls4
             (Run calls3 (Run calls2 (Run calls1 (Run calls0 idx))))).
    + apply scan_metas_lookup. rewrite Hscan4.
      apply (bool_decide_unpack _). by vm_compute.
    + intros Hm. apply scan_metas_lookup in Hm. rewrite Hscan3 in Hm.
      revert Hm. apply (bool_decide_unpack _). by vm_compute.
Qed.

(** The updater as modelled is such an implementation. *)
Lemma TestUpdateRangeAddressing_forces_witness :
  let Split :=
    SplitRangeAddressing Sample.KeyMeta1Prefix Sample.KeyMeta2Prefix
      Sample.KeyMax in
  let Merge :=
    MergeRangeAddressing Sample.KeyMeta1Prefix Sample.KeyMeta2Prefix
      Sample.KeyMax in
  TestUpdateRangeAddressing
    Sample.KeyMeta1Prefix Sample.KeyMeta2Prefix Sample.KeyMax
    Split Merge ∅ = Some (replicate 13 true) ∧
  (∃ calls,
     Split Sample.left_a Sample.right_a = (calls, None) ∧
     PutMeta (meta1Key Sample.KeyMeta1Prefix Sample.KeyMax) Sample.left_a
       ∈ calls) ∧
  (∃ calls,
     Split Sample.left_m Sample.right_m = (calls, None) ∧
     PutMeta (meta1Key Sample.KeyMeta1Prefix Sample.key_m) Sample.left_m
       ∈ calls).
Proof.
  intros Split Merge. split; [by vm_compute|].
  apply (TestUpdateRangeAddressing_forces_level1_records Split Merge ∅).
  by vm_compute.
Defined.
